(** * Session notification hook: idle-confirmation scheduler

    A shallow embedding of [src/hooks/session-notification.ts] and the
    properties of its per-session debounce state machine.

    The hook keeps three per-session collections ([notifiedSessions],
    [pendingTimers], [sessionActivitySinceIdle]), arms a [setTimeout] on
    [session.idle], and runs [executeNotification] when the timeout fires.
    [executeNotification] is an [async] function: it suspends at
    [await hasIncompleteTodos(...)], at [await sendNotification(...)] and at
    [await playSound(...)], and the host may deliver other events or fire
    other timeouts while it is suspended.  The embedding therefore is a
    labelled transition system over the hook's collections together with
    the host's timeout table and the set of suspended calls. *)

From stdpp Require Import gmap strings list fin_maps.

(** ** Platform resolver *)

Inductive Platform := darwin | linux | win32 | unsupported.

Global Instance Platform_eq_dec : EqDecision Platform.
Proof. solve_decision. Defined.

(** [detectPlatform], as a function of the string returned by [os.platform()]. *)
Definition detectPlatform (p : string) : Platform :=
  if String.eqb p "darwin" then darwin
  else if String.eqb p "linux" then linux
  else if String.eqb p "win32" then win32
  else unsupported.

Definition getDefaultSoundPath (p : Platform) : string :=
  match p with
  | darwin => "/System/Library/Sounds/Glass.aiff"
  | linux => "/usr/share/sounds/freedesktop/stereo/complete.oga"
  | win32 => "C:\Windows\Media\notify.wav"
  | unsupported => ""
  end.

(** ** Configuration *)

(** [SessionNotificationConfig]: every field is optional. *)
Record SessionNotificationConfig := {
  cfg_title : option string;
  cfg_message : option string;
  cfg_playSound : option bool;
  cfg_soundPath : option string;
  cfg_idleConfirmationDelay : option nat;
  cfg_skipIfIncompleteTodos : option bool;
}.

Definition emptyConfig : SessionNotificationConfig :=
  {| cfg_title := None; cfg_message := None; cfg_playSound := None;
     cfg_soundPath := None; cfg_idleConfirmationDelay := None;
     cfg_skipIfIncompleteTodos := None |}.

(** [mergedConfig]: the defaults overridden by the supplied fields. *)
Record MergedConfig := {
  title : string;
  message : string;
  playSound : bool;
  soundPath : string;
  idleConfirmationDelay : nat;
  skipIfIncompleteTodos : bool;
}.

Definition mergeConfig (defaultSoundPath : string)
    (config : SessionNotificationConfig) : MergedConfig :=
  {| title := default "OpenCode" (cfg_title config);
     message := default "Agent is ready for input" (cfg_message config);
     playSound := default false (cfg_playSound config);
     soundPath := default defaultSoundPath (cfg_soundPath config);
     idleConfirmationDelay := default 1500 (cfg_idleConfirmationDelay config);
     skipIfIncompleteTodos := default true (cfg_skipIfIncompleteTodos config) |}.

(** What [createSessionNotification] fixes once, at construction. *)
Record Hook := {
  currentPlatform : Platform;
  mergedConfig : MergedConfig;
}.

Definition createSessionNotification (os : string)
    (config : SessionNotificationConfig) : Hook :=
  let p := detectPlatform os in
  {| currentPlatform := p;
     mergedConfig := mergeConfig (getDefaultSoundPath p) config |}.

(** ** Todo gate *)

Record Todo := {
  content : string;
  status : string;
  priority : string;
  id : string;
}.

(** A JavaScript value seen through the cast [as Todo[]]. *)
Inductive JsTodos :=
| JsNullish                      (* null or undefined *)
| JsArray (todos : list Todo)    (* an array of todos *)
| JsOther.                       (* any other value: no usable [some] method *)

(** How the promise of [ctx.client.session.todo] settles. *)
Inductive TodoResponse :=
| TodoRejects                                  (* the request fails *)
| TodoNullish                                  (* resolves to null/undefined *)
| TodoResolves (data : JsTodos) (whole : JsTodos).
    (* resolves to a value [response]: [data] is [response.data],
       [whole] is [response] itself *)

(** The body of the [try] block up to the binding of [todos]:
    [None] when an exception is raised. *)
Definition retrievedTodos (r : TodoResponse) : option JsTodos :=
  match r with
  | TodoRejects => None
  | TodoNullish => None            (* [response.data] on a nullish value throws *)
  | TodoResolves data whole =>
      Some (match data with JsNullish => whole | _ => data end)
  end.

Definition isIncomplete (t : Todo) : bool :=
  negb (String.eqb (status t) "completed") &&
  negb (String.eqb (status t) "cancelled").

Definition hasIncompleteTodos (r : TodoResponse) : bool :=
  match retrievedTodos r with
  | None => false                                   (* catch *)
  | Some JsNullish => false                         (* !todos *)
  | Some (JsArray todos) =>
      if Nat.eqb (length todos) 0 then false else existsb isIncomplete todos
  | Some JsOther => false   (* falsy, or [todos.some] is not a function: caught *)
  end.

(** ** Events *)

Record Info := {
  info_id : option string;
  info_sessionID : option string;
}.

Record Props := {
  props_info : option Info;
  props_sessionID : option string;
}.

Record Event := {
  ev_type : string;
  ev_properties : option Props;
}.

(** Optional chaining: [props?.sessionID], [props?.info], [info?.id],
    [info?.sessionID]. *)
Definition getSessionID (props : option Props) : option string :=
  match props with Some p => props_sessionID p | None => None end.

Definition getInfo (props : option Props) : option Info :=
  match props with Some p => props_info p | None => None end.

Definition getId (info : option Info) : option string :=
  match info with Some i => info_id i | None => None end.

Definition getInfoSessionID (info : option Info) : option string :=
  match info with Some i => info_sessionID i | None => None end.

(** [if (sessionID)]: an absent or empty string is falsy. *)
Definition truthy (s : option string) : option string :=
  match s with
  | Some x => if String.eqb x "" then None else Some x
  | None => None
  end.

(** ** The hook's collections and its host

    [notifiedSessions], [pendingTimers] and [sessionActivitySinceIdle] are
    the three collections of the closure.  The host side is the table of
    live timeouts ([setTimeout] handles that were neither fired nor
    cleared, each with the session identifier its callback captured) and
    the suspended [executeNotification] calls.  A timeout handle is an
    object (always truthy); it is represented by its creation index, and a
    call is identified by the handle of the timeout that started it.  Time
    itself is abstracted: every timeout is armed with the same
    [idleConfirmationDelay], and a live timeout may fire at any later point
    of a run. *)

Inductive Await :=
| AwaitTodo (sessionID : string)     (* at [await hasIncompleteTodos(...)] *)
| AwaitSend (sessionID : string)     (* at [await sendNotification(...)] *)
| AwaitSound (sessionID : string).   (* at [await playSound(...)] *)

(** How an awaited promise settles. *)
Inductive Outcome := Fulfilled | Rejected.

(** What a run lets one observe, in order.  [r] is the call that acted. *)
Inductive Obs :=
| TodoCall (r : nat) (sessionID : string)
| AddNotified (r : nat) (sessionID : string)
| SendCall (r : nat) (sessionID : string) (p : Platform) (title message : string)
| SoundCall (r : nat) (sessionID : string) (p : Platform) (path : string)
| Settled (r : nat) (sessionID : string) (o : Outcome).

Record World := mkWorld {
  notifiedSessions : gset string;
  pendingTimers : gmap string nat;
  sessionActivitySinceIdle : gset string;
  timerQueue : gmap nat string;
  nextTimer : nat;
  inflight : gmap nat Await;
  log : list Obs;
}.

Definition initial : World :=
  {| notifiedSessions := ∅; pendingTimers := ∅; sessionActivitySinceIdle := ∅;
     timerQueue := ∅; nextTimer := 0; inflight := ∅; log := [] |}.

Definition setNotified (f : gset string → gset string) (w : World) : World :=
  {| notifiedSessions := f (notifiedSessions w);
     pendingTimers := pendingTimers w;
     sessionActivitySinceIdle := sessionActivitySinceIdle w;
     timerQueue := timerQueue w; nextTimer := nextTimer w;
     inflight := inflight w; log := log w |}.

Definition setPending (f : gmap string nat → gmap string nat) (w : World) : World :=
  {| notifiedSessions := notifiedSessions w;
     pendingTimers := f (pendingTimers w);
     sessionActivitySinceIdle := sessionActivitySinceIdle w;
     timerQueue := timerQueue w; nextTimer := nextTimer w;
     inflight := inflight w; log := log w |}.

Definition setActivity (f : gset string → gset string) (w : World) : World :=
  {| notifiedSessions := notifiedSessions w;
     pendingTimers := pendingTimers w;
     sessionActivitySinceIdle := f (sessionActivitySinceIdle w);
     timerQueue := timerQueue w; nextTimer := nextTimer w;
     inflight := inflight w; log := log w |}.

Definition setInflight (f : gmap nat Await → gmap nat Await) (w : World) : World :=
  {| notifiedSessions := notifiedSessions w;
     pendingTimers := pendingTimers w;
     sessionActivitySinceIdle := sessionActivitySinceIdle w;
     timerQueue := timerQueue w; nextTimer := nextTimer w;
     inflight := f (inflight w); log := log w |}.

Definition emit (o : Obs) (w : World) : World :=
  {| notifiedSessions := notifiedSessions w;
     pendingTimers := pendingTimers w;
     sessionActivitySinceIdle := sessionActivitySinceIdle w;
     timerQueue := timerQueue w; nextTimer := nextTimer w;
     inflight := inflight w; log := log w ++ [o] |}.

(** [clearTimeout(timer)]: the timeout leaves the host's table. *)
Definition clearTimeout (timer : nat) (w : World) : World :=
  {| notifiedSessions := notifiedSessions w;
     pendingTimers := pendingTimers w;
     sessionActivitySinceIdle := sessionActivitySinceIdle w;
     timerQueue := delete timer (timerQueue w); nextTimer := nextTimer w;
     inflight := inflight w; log := log w |}.

(** [setTimeout(() => executeNotification(sessionID), delay)]: a fresh
    handle, returned together with the new world. *)
Definition setTimeout (sessionID : string) (w : World) : nat * World :=
  (nextTimer w,
   {| notifiedSessions := notifiedSessions w;
      pendingTimers := pendingTimers w;
      sessionActivitySinceIdle := sessionActivitySinceIdle w;
      timerQueue := <[nextTimer w := sessionID]> (timerQueue w);
      nextTimer := S (nextTimer w);
      inflight := inflight w; log := log w |}).

(** The state the spec calls per-session: [notified], [pendingTimer],
    [activitySinceIdle]. *)
Definition sessionState (w : World) (sessionID : string)
    : bool * option nat * bool :=
  (bool_decide (sessionID ∈ notifiedSessions w),
   pendingTimers w !! sessionID,
   bool_decide (sessionID ∈ sessionActivitySinceIdle w)).

(** How a segment of an [async] function ends. *)
Inductive Ctl :=
| Finished                 (* the function returned *)
| Suspended (a : Await)    (* it reached an [await] *)
| Thrown.                  (* an exception escaped *)

(** [try { body } catch {}] around a segment; nothing follows the
    statement, so a caught exception ends the function. *)
Definition tryCatch (body : World → Ctl * World) (w : World) : Ctl * World :=
  match body w with
  | (Thrown, w') => (Finished, w')
  | other => other
  end.

(** [await p] when [p] settles with [o]. *)
Definition awaited (o : Outcome) (k : World → Ctl * World) (w : World)
    : Ctl * World :=
  match o with
  | Fulfilled => k w
  | Rejected => (Thrown, w)
  end.

Section Hook.

Variable hook : Hook.

Definition cancelPendingNotification (sessionID : string) (w : World) : World :=
  let w1 :=
    match pendingTimers w !! sessionID with
    | Some timer => setPending (delete sessionID) (clearTimeout timer w)
    | None => w
    end in
  setActivity (λ s, {[sessionID]} ∪ s) w1.

Definition markSessionActivity (sessionID : string) (w : World) : World :=
  setNotified (λ s, s ∖ {[sessionID]}) (cancelPendingNotification sessionID w).

(** Lines 142-145: commit the decision, then call [sendNotification] and
    suspend on its promise. *)
Definition dispatch (r : nat) (sessionID : string) (w : World) : Ctl * World :=
  let w1 := emit (AddNotified r sessionID)
              (setNotified (λ s, {[sessionID]} ∪ s) w) in
  (Suspended (AwaitSend sessionID),
   emit (SendCall r sessionID (currentPlatform hook)
           (title (mergedConfig hook)) (message (mergedConfig hook))) w1).

(** [executeNotification] from its entry to its first [await] or return. *)
Definition executeNotification (r : nat) (sessionID : string) (w : World)
    : Ctl * World :=
  let w1 := setPending (delete sessionID) w in
  if decide (sessionID ∈ sessionActivitySinceIdle w1) then
    (Finished, setActivity (λ s, s ∖ {[sessionID]}) w1)
  else if decide (sessionID ∈ notifiedSessions w1) then (Finished, w1)
  else if skipIfIncompleteTodos (mergedConfig hook) then
    (Suspended (AwaitTodo sessionID), emit (TodoCall r sessionID) w1)
  else dispatch r sessionID w1.

(** Resumption after [await hasIncompleteTodos(...)]. *)
Definition afterTodo (r : nat) (sessionID : string) (resp : TodoResponse)
    (w : World) : Ctl * World :=
  if hasIncompleteTodos resp then (Finished, w) else dispatch r sessionID w.

(** Resumption inside the [try] block after [await sendNotification(...)]. *)
Definition afterSend (r : nat) (sessionID : string) (o : Outcome)
    : World → Ctl * World :=
  tryCatch (awaited o (λ w,
    if playSound (mergedConfig hook)
       && negb (String.eqb (soundPath (mergedConfig hook)) "") then
      (Suspended (AwaitSound sessionID),
       emit (SoundCall r sessionID (currentPlatform hook)
               (soundPath (mergedConfig hook))) w)
    else (Finished, w))).

(** Resumption inside the [try] block after [await playSound(...)]. *)
Definition afterSound (r : nat) (sessionID : string) (o : Outcome)
    : World → Ctl * World :=
  tryCatch (awaited o (λ w, (Finished, w))).

(** The host records how a segment ended: the call stays suspended, or its
    promise settles. *)
Definition settle (r : nat) (sessionID : string) (cw : Ctl * World) : World :=
  match cw with
  | (Finished, w) =>
      emit (Settled r sessionID Fulfilled) (setInflight (delete r) w)
  | (Suspended a, w) => setInflight (<[r := a]>) w
  | (Thrown, w) =>
      emit (Settled r sessionID Rejected) (setInflight (delete r) w)
  end.

(** Lines 174-180: clear the activity mark, arm the timeout, record it. *)
Definition armTimer (sessionID : string) (w : World) : World :=
  let w1 := setActivity (λ s, s ∖ {[sessionID]}) w in
  let '(timer, w2) := setTimeout sessionID w1 in
  setPending (<[sessionID := timer]>) w2.

(** The [session.idle] branch (lines 167-181). *)
Definition onIdle (props : option Props) (w : World) : World :=
  match truthy (getSessionID props) with
  | None => w
  | Some sessionID =>
      if decide (sessionID ∈ notifiedSessions w) then w
      else if decide (is_Some (pendingTimers w !! sessionID)) then w
      else armTimer sessionID w
  end.

Definition onMessageUpdated (props : option Props) (w : World) : World :=
  match truthy (getInfoSessionID (getInfo props)) with
  | Some sessionID => markSessionActivity sessionID w
  | None => w
  end.

(** Lines 194-196. *)
Definition forgetSession (sessionID : string) (w : World) : World :=
  setActivity (λ s, s ∖ {[sessionID]})
    (setNotified (λ s, s ∖ {[sessionID]})
       (cancelPendingNotification sessionID w)).

Definition onDeleted (props : option Props) (w : World) : World :=
  match truthy (getId (getInfo props)) with
  | Some sessionID => forgetSession sessionID w
  | None => w
  end.

(** The handler returned by [createSessionNotification] (lines 153-199). *)
Definition handle (event : Event) (w : World) : World :=
  if decide (currentPlatform hook = unsupported) then w
  else
    let props := ev_properties event in
    if String.eqb (ev_type event) "session.updated"
       || String.eqb (ev_type event) "session.created" then
      match truthy (getId (getInfo props)) with
      | Some sessionID => markSessionActivity sessionID w
      | None => w
      end
    else if String.eqb (ev_type event) "session.idle" then
      (* every path of this branch either returns or falls through the two
         remaining tests, which fail on this event type *)
      onIdle props w
    else if String.eqb (ev_type event) "message.updated" then
      onMessageUpdated props w
    else if String.eqb (ev_type event) "session.deleted" then
      onDeleted props w
    else w.

(** ** Runs *)

Inductive Label :=
| Deliver (event : Event)                     (* the host calls the handler *)
| Fire (timer : nat)                          (* a live timeout fires *)
| TodoSettles (r : nat) (resp : TodoResponse) (* the todo request settles *)
| SendSettles (r : nat) (o : Outcome)         (* [sendNotification] settles *)
| SoundSettles (r : nat) (o : Outcome).       (* [playSound] settles *)

(** One task of the event loop.  [None]: the label is not enabled. *)
Definition step (w : World) (l : Label) : option World :=
  match l with
  | Deliver event => Some (handle event w)
  | Fire timer =>
      match timerQueue w !! timer with
      | Some sessionID =>
          Some (settle timer sessionID
                  (executeNotification timer sessionID (clearTimeout timer w)))
      | None => None
      end
  | TodoSettles r resp =>
      match inflight w !! r with
      | Some (AwaitTodo sessionID) =>
          Some (settle r sessionID (afterTodo r sessionID resp w))
      | _ => None
      end
  | SendSettles r o =>
      match inflight w !! r with
      | Some (AwaitSend sessionID) =>
          Some (settle r sessionID (afterSend r sessionID o w))
      | _ => None
      end
  | SoundSettles r o =>
      match inflight w !! r with
      | Some (AwaitSound sessionID) =>
          Some (settle r sessionID (afterSound r sessionID o w))
      | _ => None
      end
  end.

Fixpoint run (w : World) (ls : list Label) : option World :=
  match ls with
  | [] => Some w
  | l :: ls' =>
      match step w l with
      | Some w' => run w' ls'
      | None => None
      end
  end.

Definition reachable (w : World) : Prop := ∃ ls, run initial ls = Some w.

(** The session identifier the handler reads off an event: the field it
    consults depends on the event type; [None] when the handler ignores
    the event. *)
Definition eventSession (event : Event) : option string :=
  let props := ev_properties event in
  if decide (currentPlatform hook = unsupported) then None
  else if String.eqb (ev_type event) "session.updated"
          || String.eqb (ev_type event) "session.created" then
    truthy (getId (getInfo props))
  else if String.eqb (ev_type event) "session.idle" then
    truthy (getSessionID props)
  else if String.eqb (ev_type event) "message.updated" then
    truthy (getInfoSessionID (getInfo props))
  else if String.eqb (ev_type event) "session.deleted" then
    truthy (getId (getInfo props))
  else None.

End Hook.

(** The session a suspended call works for. *)
Definition awaitSession (a : Await) : string :=
  match a with
  | AwaitTodo s | AwaitSend s | AwaitSound s => s
  end.

(** The session a task of the event loop works for: the identifier read
    off the event, the one captured by the timeout's callback, or the one
    of the resumed call. *)
Definition labelSession (hook : Hook) (w : World) (l : Label) : option string :=
  match l with
  | Deliver event => eventSession hook event
  | Fire timer => timerQueue w !! timer
  | TodoSettles r _ | SendSettles r _ | SoundSettles r _ =>
      awaitSession <$> inflight w !! r
  end.

(** Event kinds, by the [type] field. *)
Definition isActivityType (ty : string) : bool :=
  String.eqb ty "session.created" || String.eqb ty "session.updated"
  || String.eqb ty "message.updated".

Definition isIdleType (ty : string) : bool := String.eqb ty "session.idle".

Definition isDeletedType (ty : string) : bool := String.eqb ty "session.deleted".

(** The call that made an observation, and the session it was for. *)
Definition obsCall (o : Obs) : nat :=
  match o with
  | TodoCall r _ | AddNotified r _ | SendCall r _ _ _ _
  | SoundCall r _ _ _ | Settled r _ _ => r
  end.

Definition obsSession (o : Obs) : string :=
  match o with
  | TodoCall _ s | AddNotified _ s | SendCall _ s _ _ _
  | SoundCall _ s _ _ | Settled _ s _ => s
  end.

Definition isSendCall (o : Obs) : bool :=
  match o with SendCall _ _ _ _ _ => true | _ => false end.

Definition isSoundCall (o : Obs) : bool :=
  match o with SoundCall _ _ _ _ => true | _ => false end.

(** The [sendNotification] calls made by call [r], and those made for a
    session. *)
Definition sendCallsOf (r : nat) (l : list Obs) : list Obs :=
  List.filter (λ o, isSendCall o && Nat.eqb (obsCall o) r) l.

Definition sendCallsFor (sessionID : string) (l : list Obs) : list Obs :=
  List.filter (λ o, isSendCall o && String.eqb (obsSession o) sessionID) l.

(** Concrete events, as the host builds them. *)
Definition sessionIdle (sessionID : string) : Event :=
  {| ev_type := "session.idle";
     ev_properties :=
       Some {| props_info := None; props_sessionID := Some sessionID |} |}.

Definition sessionCreated (sessionID : string) : Event :=
  {| ev_type := "session.created";
     ev_properties :=
       Some {| props_info :=
                 Some {| info_id := Some sessionID; info_sessionID := None |};
               props_sessionID := None |} |}.

Definition sessionUpdated (sessionID : string) : Event :=
  {| ev_type := "session.updated";
     ev_properties :=
       Some {| props_info :=
                 Some {| info_id := Some sessionID; info_sessionID := None |};
               props_sessionID := None |} |}.

Definition messageUpdated (messageID sessionID : string) : Event :=
  {| ev_type := "message.updated";
     ev_properties :=
       Some {| props_info :=
                 Some {| info_id := Some messageID;
                         info_sessionID := Some sessionID |};
               props_sessionID := None |} |}.

Definition sessionDeleted (sessionID : string) : Event :=
  {| ev_type := "session.deleted";
     ev_properties :=
       Some {| props_info :=
                 Some {| info_id := Some sessionID; info_sessionID := None |};
               props_sessionID := None |} |}.

(** The hook on Linux with the default configuration, and one without the
    todo gate. *)
Definition defaultHook : Hook := createSessionNotification "linux" emptyConfig.

Definition ungatedHook : Hook :=
  createSessionNotification "linux"
    {| cfg_title := None; cfg_message := None; cfg_playSound := Some true;
       cfg_soundPath := None; cfg_idleConfirmationDelay := None;
       cfg_skipIfIncompleteTodos := Some false |}.

(** A todo request that resolves to an empty list. *)
Definition noTodos : TodoResponse := TodoResolves (JsArray []) JsOther.

(** ** Notions used to state the properties *)

Section Notions.

Variable hook : Hook.

(** What the handler does, by cases. *)
Inductive Handled (event : Event) (w : World) : World → Prop :=
| HandledIgnored :
    Handled event w w
| HandledActivity s :
    eventSession hook event = Some s →
    isActivityType (ev_type event) = true →
    Handled event w (markSessionActivity s w)
| HandledIdle s :
    eventSession hook event = Some s →
    isIdleType (ev_type event) = true →
    s ∉ notifiedSessions w →
    pendingTimers w !! s = None →
    Handled event w (armTimer s w)
| HandledDeleted s :
    eventSession hook event = Some s →
    isDeletedType (ev_type event) = true →
    Handled event w (forgetSession s w).

(** The one [sendNotification] call the hook makes on behalf of call [r]:
    current platform, configured title and message. *)
Definition theSendCall (r : nat) (s : string) : Obs :=
  SendCall r s (currentPlatform hook)
    (title (mergedConfig hook)) (message (mergedConfig hook)).

(** A task that ends the idle episode of session [s]: an activity or
    deletion event that the handler reads for [s]. *)
Definition endsEpisode (s : string) (l : Label) : bool :=
  match l with
  | Deliver event =>
      (isActivityType (ev_type event) || isDeletedType (ev_type event))
      && bool_decide (eventSession hook event = Some s)
  | _ => false
  end.

End Notions.

(** The hook's bookkeeping agrees with the host's table of live timeouts,
    and nothing has been observed yet of a call whose timeout is live. *)
Record Inv (w : World) : Prop := {
  inv_pending_queue : ∀ s t,
    pendingTimers w !! s = Some t → timerQueue w !! t = Some s;
  inv_queue_pending : ∀ s t,
    timerQueue w !! t = Some s → pendingTimers w !! s = Some t;
  inv_queue_fresh : ∀ s t,
    timerQueue w !! t = Some s → t < nextTimer w;
  inv_inflight : ∀ r a,
    inflight w !! r = Some a → r < nextTimer w ∧ timerQueue w !! r = None;
  inv_quiet : ∀ s t,
    pendingTimers w !! s = Some t → s ∉ sessionActivitySinceIdle w;
  inv_log : ∀ o,
    o ∈ log w → obsCall o < nextTimer w ∧ timerQueue w !! obsCall o = None;
}.

(** A segment of a call leaves the timeouts alone. *)
Definition sameTimers (w w' : World) : Prop :=
  nextTimer w' = nextTimer w ∧ timerQueue w' = timerQueue w.


(** The call [r] is past the todo gate, or will never run: its timeout is
    no longer live and it is not waiting for the todo request. *)
Definition pastGate (r : nat) (w : World) : Prop :=
  r < nextTimer w ∧ timerQueue w !! r = None ∧
  ∀ s, inflight w !! r ≠ Some (AwaitTodo s).

(** No call at all is suspended at the todo gate. *)
Definition noGate (w : World) : Prop :=
  ∀ r s, inflight w !! r ≠ Some (AwaitTodo s).


Definition isDispatchCall (o : Obs) : bool := isSendCall o || isSoundCall o.

(** Every dispatch in the log comes after the same call recorded the
    session as notified. *)
Definition committedFirst (l : list Obs) : Prop :=
  ∀ l1 o l2, l = l1 ++ o :: l2 → isDispatchCall o = true →
             AddNotified (obsCall o) (obsSession o) ∈ l1.

(** No promise of [executeNotification] was ever rejected. *)
Definition neverRejected (l : list Obs) : Prop :=
  ∀ r s, Settled r s Rejected ∉ l.

Record Committed (w : World) : Prop := {
  com_order : committedFirst (log w);
  com_inflight : ∀ r s,
    inflight w !! r = Some (AwaitSend s) ∨ inflight w !! r = Some (AwaitSound s) →
    AddNotified r s ∈ log w;
  com_settled : neverRejected (log w);
}.

(** ** Concrete runs *)

Definition S1 : string := "S1".
Definition S2 : string := "S2".

(** Two confirmation calls overlap at the todo gate: the second
    [session.idle] arrives after the first timeout fired and while its
    todo request is pending; both requests then report no todos. *)
Definition raceRun : list Label :=
  [ Deliver (sessionIdle S1); Fire 0;
    Deliver (sessionIdle S1); Fire 1;
    TodoSettles 0 noTodos; TodoSettles 1 noTodos ].


(** A todo with a given status. *)
Definition todo (st : string) : Todo :=
  {| content := "write tests"; status := st; priority := "high"; id := "1" |}.

(** The world after one [session.idle] for [S1], after one
    [session.created] for [S1], and after [raceRun]. *)
Definition armedWorld : World := handle defaultHook (sessionIdle S1) initial.

Definition activeWorld : World := handle defaultHook (sessionCreated S1) initial.

Definition racedWorld : World := default initial (run defaultHook initial raceRun).

(** ** The notification sink and further notions

    [sendNotification] and [playSound] hand a command to the shell of the
    host ([ctx.$]).  A command is the list of its words: the words written
    in the template, and one word for each interpolated string. *)

Definition dquote : Ascii.ascii := Ascii.ascii_of_nat 34.
Definition squote : Ascii.ascii := Ascii.ascii_of_nat 39.
Definition backslash : Ascii.ascii := Ascii.ascii_of_nat 92.

(** [s.replace(/c/g, rep)] for a one-character pattern [c]. *)
Fixpoint replaceAll (c : Ascii.ascii) (rep : string) (s : string) : string :=
  match s with
  | EmptyString => EmptyString
  | String x s' =>
      if Ascii.eqb x c then rep +:+ replaceAll c rep s'
      else String x (replaceAll c rep s')
  end.

(** Lines 49-50: every double quote, then every single quote, gets a
    backslash in front. *)
Definition escapeQuotes (s : string) : string :=
  replaceAll squote (String backslash (String squote EmptyString))
    (replaceAll dquote (String backslash (String dquote EmptyString)) s).

(** The command [sendNotification] runs (lines 52-62); [None] when the
    [switch] matches no case. *)
Definition sendNotificationCommand (p : Platform) (title message : string)
    : option (list string) :=
  let escapedTitle := escapeQuotes title in
  let escapedMessage := escapeQuotes message in
  match p with
  | darwin =>
      Some ["osascript"; "-e";
            "display notification " +:+ String dquote escapedMessage
            +:+ String dquote " with title " +:+ String dquote escapedTitle
            +:+ String dquote EmptyString]
  | linux => Some ["notify-send"; escapedTitle; escapedMessage]
  | win32 =>
      Some ["powershell"; "-Command";
            "[System.Reflection.Assembly]::LoadWithPartialName('System.Windows.Forms'); [System.Windows.Forms.MessageBox]::Show('"
            +:+ escapedMessage +:+ "', '" +:+ escapedTitle +:+ "')"]
  | unsupported => None
  end.

(** The commands [playSound] runs (lines 65-79), the first one failing or
    not; each has its own [catch], so the function itself never throws. *)
Definition playSoundCommands (p : Platform) (soundPath : string)
    (firstFails : bool) : list (list string) :=
  match p with
  | darwin => [["afplay"; soundPath]]
  | linux =>
      ["paplay"; soundPath]
      :: (if firstFails then [["aplay"; soundPath]] else [])
  | win32 =>
      [["powershell"; "-Command";
        "(New-Object Media.SoundPlayer '" +:+ soundPath +:+ "').PlaySync()"]]
  | unsupported => []
  end.

(** A character the escaping is about. *)
Definition isQuote (c : Ascii.ascii) : bool := Ascii.eqb c dquote || Ascii.eqb c squote.

(** The number of quote characters of a string. *)
Fixpoint countQuotes (s : string) : nat :=
  match s with
  | EmptyString => 0
  | String x s' => (if isQuote x then 1 else 0) + countQuotes s'
  end.

(** Drop the backslash in front of every quote. *)
Fixpoint unescapeQuotes (s : string) : string :=
  match s with
  | EmptyString => EmptyString
  | String x s' =>
      match s' with
      | String q r =>
          if Ascii.eqb x backslash && isQuote q then String q (unescapeQuotes r)
          else String x (unescapeQuotes s')
      | EmptyString => String x EmptyString
      end
  end.

(** The event types the handler knows. *)
Definition knownEventType (ty : string) : bool :=
  String.eqb ty "session.updated" || String.eqb ty "session.created"
  || String.eqb ty "session.idle" || String.eqb ty "message.updated"
  || String.eqb ty "session.deleted".

Definition isTodoCall (o : Obs) : bool :=
  match o with TodoCall _ _ => true | _ => false end.

(** Every observation that [trigger] selects comes after the observation
    [mark] names for it. *)
Definition precededBy (trigger : Obs → bool) (mark : Obs → Obs)
    (l : list Obs) : Prop :=
  ∀ l1 o l2, l = l1 ++ o :: l2 → trigger o = true → mark o ∈ l1.

(** The todo request a call makes before it notifies. *)
Definition todoCallOf (o : Obs) : Obs := TodoCall (obsCall o) (obsSession o).

(** Each call sends at most once, and not before it is past the todo gate. *)
Definition sendsOnce (w : World) : Prop :=
  ∀ r, length (sendCallsOf r (log w)) ≤ 1 ∧
       (∀ s, inflight w !! r = Some (AwaitTodo s) → sendCallsOf r (log w) = []).

Section SinkNotions.

Variable hook : Hook.

(** A session is marked notified only by a call that sends. *)
Definition notifiedBySend (w : World) : Prop :=
  ∀ s, s ∈ notifiedSessions w → ∃ r, theSendCall hook r s ∈ log w.

(** What each observation of a run looks like. *)
Definition obsShape (o : Obs) : Prop :=
  match o with
  | TodoCall _ _ => skipIfIncompleteTodos (mergedConfig hook) = true
  | SendCall _ _ p ti m =>
      p = currentPlatform hook ∧ ti = title (mergedConfig hook) ∧
      m = message (mergedConfig hook)
  | SoundCall _ _ p path =>
      p = currentPlatform hook ∧ path = soundPath (mergedConfig hook) ∧
      playSound (mergedConfig hook) = true ∧ path ≠ EmptyString
  | _ => True
  end.

(** The [sendNotification] call a later observation of the same call
    relies on. *)
Definition sendOf (o : Obs) : Obs := theSendCall hook (obsCall o) (obsSession o).

Record Ordered (w : World) : Prop := {
  ord_shape : ∀ o, o ∈ log w → obsShape o;
  ord_gate :
    skipIfIncompleteTodos (mergedConfig hook) = true →
    precededBy isSendCall todoCallOf (log w);
  ord_gate_inflight : ∀ r s,
    inflight w !! r = Some (AwaitTodo s) → TodoCall r s ∈ log w;
  ord_sound : precededBy isSoundCall sendOf (log w);
  ord_send_inflight : ∀ r s,
    inflight w !! r = Some (AwaitSend s) → theSendCall hook r s ∈ log w;
}.
End SinkNotions.

(** The world in which the first confirmation call for [S1] waits at the
    todo gate, and the world of the hook without the gate after a
    notification was sent and fulfilled. *)
Definition gateWorld : World :=
  default initial (run defaultHook initial [Deliver (sessionIdle S1); Fire 0]).

Definition soundWorld : World :=
  default initial
    (run ungatedHook initial
       [Deliver (sessionIdle S1); Fire 0; SendSettles 0 Fulfilled]).

(** After [raceRun]: one more [session.idle], and the two
    [sendNotification] promises settle. *)
Definition quietRun : list Label :=
  [Deliver (sessionIdle S1); SendSettles 0 Fulfilled; SendSettles 1 Rejected].

Definition quietWorld : World :=
  default initial (run defaultHook racedWorld quietRun).

(** A todo request that finds one open task. *)
Definition openTodos : TodoResponse :=
  TodoResolves (JsArray [todo "pending"]) JsOther.

(** An event of a type the handler does not know. *)
Definition unknownEvent : Event :=
  {| ev_type := "session.error";
     ev_properties :=
       Some {| props_info := None; props_sessionID := Some S1 |} |}.

(** * Properties *)

(** Unfold the world updates and reduce the projections, in the goal and
    everywhere. *)
Ltac wsimplg :=
  unfold dispatch, settle, markSessionActivity, forgetSession, armTimer,
    setTimeout, clearTimeout, setNotified, setPending, setActivity,
    setInflight, emit;
  cbn [notifiedSessions pendingTimers sessionActivitySinceIdle timerQueue
       nextTimer inflight log fst snd].

Ltac wsimpl :=
  unfold dispatch, settle, markSessionActivity, forgetSession, armTimer,
    setTimeout, clearTimeout, setNotified, setPending, setActivity,
    setInflight, emit in *;
  cbn [notifiedSessions pendingTimers sessionActivitySinceIdle timerQueue
       nextTimer inflight log fst snd] in *.

(** Membership goals over the set updates the hook performs. *)
Ltac set_frame :=
  rewrite ?elem_of_union, ?elem_of_difference, ?elem_of_singleton;
  intuition congruence.

(** ** The todo gate (C6) *)



(** ** The handler, case by case *)

Section Handler.

Variable hook : Hook.

Lemma handle_cases event w : Handled hook event w (handle hook event w).
Proof.
  unfold handle.
  destruct (decide (currentPlatform hook = unsupported)) as [Hp | Hp];
    [constructor |].
  destruct (String.eqb (ev_type event) "session.updated"
            || String.eqb (ev_type event) "session.created") eqn:Hact.
  { destruct (truthy (getId (getInfo (ev_properties event)))) as [s |] eqn:Hs;
      [| constructor].
    apply HandledActivity.
    - unfold eventSession. rewrite decide_False by done. by rewrite Hact.
    - unfold isActivityType. apply orb_true_iff in Hact as [-> | ->];
        by rewrite ?orb_true_r. }
  destruct (String.eqb (ev_type event) "session.idle") eqn:Hidle.
  { unfold onIdle.
    destruct (truthy (getSessionID (ev_properties event))) as [s |] eqn:Hs;
      [| constructor].
    destruct (decide (s ∈ notifiedSessions w)); [constructor |].
    destruct (decide (is_Some (pendingTimers w !! s))) as [| Hn];
      [constructor |].
    apply HandledIdle; try done.
    - unfold eventSession. rewrite decide_False by done.
      by rewrite Hact, Hidle.
    - by apply eq_None_not_Some. }
  destruct (String.eqb (ev_type event) "message.updated") eqn:Hmsg.
  { unfold onMessageUpdated.
    destruct (truthy (getInfoSessionID (getInfo (ev_properties event))))
      as [s |] eqn:Hs; [| constructor].
    apply HandledActivity.
    - unfold eventSession. rewrite decide_False by done.
      by rewrite Hact, Hidle, Hmsg.
    - unfold isActivityType. by rewrite Hmsg, orb_true_r. }
  destruct (String.eqb (ev_type event) "session.deleted") eqn:Hdel;
    [| constructor].
  unfold onDeleted.
  destruct (truthy (getId (getInfo (ev_properties event)))) as [s |] eqn:Hs;
    [| constructor].
  apply HandledDeleted.
  - unfold eventSession. rewrite decide_False by done.
    by rewrite Hact, Hidle, Hmsg, Hdel.
  - done.
Qed.

Lemma handle_activity event s w :
  eventSession hook event = Some s → isActivityType (ev_type event) = true →
  handle hook event w = markSessionActivity s w.
Proof.
  unfold eventSession, handle, isActivityType, onMessageUpdated.
  case_decide; [done |].
  destruct (String.eqb (ev_type event) "session.updated") eqn:E1,
    (String.eqb (ev_type event) "session.created") eqn:E2,
    (String.eqb (ev_type event) "session.idle") eqn:E3,
    (String.eqb (ev_type event) "message.updated") eqn:E4;
    cbn [orb]; try done; try (by intros ->);
    apply String.eqb_eq in E3; rewrite E3 in *; done.
Qed.

Lemma handle_idle event s w :
  eventSession hook event = Some s → isIdleType (ev_type event) = true →
  handle hook event w =
    if decide (s ∈ notifiedSessions w) then w
    else if decide (is_Some (pendingTimers w !! s)) then w
    else armTimer s w.
Proof.
  unfold eventSession, handle, isIdleType, onIdle.
  case_decide; [done |]. intros Hs Hty. rewrite Hty in *.
  apply String.eqb_eq in Hty. rewrite Hty in *. cbn in Hs |- *.
  by rewrite Hs.
Qed.


Lemma handle_log event w : log (handle hook event w) = log w.
Proof.
  destruct (handle_cases event w); try done.
  - unfold markSessionActivity, cancelPendingNotification.
    by destruct (pendingTimers w !! s).
  - unfold forgetSession, cancelPendingNotification.
    by destruct (pendingTimers w !! s).
Qed.

Lemma handle_inflight event w : inflight (handle hook event w) = inflight w.
Proof.
  destruct (handle_cases event w); try done.
  - unfold markSessionActivity, cancelPendingNotification.
    by destruct (pendingTimers w !! s).
  - unfold forgetSession, cancelPendingNotification.
    by destruct (pendingTimers w !! s).
Qed.

Lemma handle_nextTimer event w :
  nextTimer w ≤ nextTimer (handle hook event w).
Proof.
  destruct (handle_cases event w); try done.
  - unfold markSessionActivity, cancelPendingNotification.
    by destruct (pendingTimers w !! s).
  - simpl. lia.
  - unfold forgetSession, cancelPendingNotification.
    by destruct (pendingTimers w !! s).
Qed.

Lemma handle_queue_None event w r :
  r < nextTimer w → timerQueue w !! r = None →
  timerQueue (handle hook event w) !! r = None.
Proof.
  intros Hlt Hq.
  destruct (handle_cases event w); try done.
  - unfold markSessionActivity, cancelPendingNotification.
    destruct (pendingTimers w !! s); [| done]. simpl.
    rewrite lookup_delete. by case_decide.
  - simpl. rewrite lookup_insert. case_decide; [lia | done].
  - unfold forgetSession, cancelPendingNotification.
    destruct (pendingTimers w !! s); [| done]. simpl.
    rewrite lookup_delete. by case_decide.
Qed.

Lemma cancel_sessionState s w :
  pendingTimers (cancelPendingNotification s w) !! s = None ∧
  s ∈ sessionActivitySinceIdle (cancelPendingNotification s w) ∧
  notifiedSessions (cancelPendingNotification s w) = notifiedSessions w.
Proof.
  unfold cancelPendingNotification.
  destruct (pendingTimers w !! s) eqn:Hs; wsimplg.
  - rewrite lookup_delete_eq, elem_of_union, elem_of_singleton. auto.
  - rewrite elem_of_union, elem_of_singleton. auto.
Qed.

Lemma cancel_activity s s' w :
  s' ∈ sessionActivitySinceIdle w →
  s' ∈ sessionActivitySinceIdle (cancelPendingNotification s w).
Proof.
  intros Hin. unfold cancelPendingNotification.
  destruct (pendingTimers w !! s); wsimplg;
    rewrite elem_of_union; by right.
Qed.

Lemma armTimer_sessionState s w :
  s ∉ notifiedSessions w →
  sessionState (armTimer s w) s = (false, Some (nextTimer w), false) ∧
  timerQueue (armTimer s w) !! nextTimer w = Some s ∧
  nextTimer (armTimer s w) = S (nextTimer w) ∧
  log (armTimer s w) = log w ∧ inflight (armTimer s w) = inflight w.
Proof.
  intros Hn. unfold sessionState. wsimplg. rewrite !lookup_insert_eq.
  rewrite bool_decide_eq_false_2 by done.
  rewrite bool_decide_eq_false_2; [done |].
  rewrite elem_of_difference, elem_of_singleton. by intros [_ ?].
Qed.

End Handler.

(** ** The bookkeeping invariant *)

Lemma Inv_initial : Inv initial.
Proof.
  split; simpl; intros *; try (rewrite lookup_empty; done).
  intros H. by apply elem_of_nil in H.
Qed.

Lemma Inv_cancel s w : Inv w → Inv (cancelPendingNotification s w).
Proof.
  intros [Hpq Hqp Hqf Hif Hqu Hlg].
  unfold cancelPendingNotification.
  destruct (pendingTimers w !! s) as [t |] eqn:Hs.
  - pose proof (Hpq _ _ Hs) as Hts.
    split; wsimplg.
    + intros s' t'. rewrite !lookup_delete. repeat case_decide; try done.
      * intros Hl. subst t'. apply Hpq in Hl. congruence.
      * apply Hpq.
    + intros s' t'. rewrite !lookup_delete. repeat case_decide; try done.
      * intros Hl. subst s'. apply Hqp in Hl. congruence.
      * apply Hqp.
    + intros s' t'. rewrite lookup_delete. case_decide; [done | apply Hqf].
    + intros r a Hl. destruct (Hif _ _ Hl) as [? ?]. split; [done |].
      rewrite lookup_delete. by case_decide.
    + intros s' t'. rewrite lookup_delete. case_decide; [done |].
      intros Hl. specialize (Hqu _ _ Hl).
      rewrite elem_of_union, elem_of_singleton.
      intros [? | ?]; [congruence | done].
    + intros o Hl. destruct (Hlg _ Hl) as [? ?]. split; [done |].
      rewrite lookup_delete. by case_decide.
  - split; wsimplg; try done.
    intros s' t' Hl. specialize (Hqu _ _ Hl).
    rewrite elem_of_union, elem_of_singleton.
    intros [? | ?]; [congruence | done].
Qed.

Lemma Inv_setNotified f w : Inv w → Inv (setNotified f w).
Proof. intros []. by split. Qed.

Lemma Inv_emit o w :
  Inv w → obsCall o < nextTimer w → timerQueue w !! obsCall o = None →
  Inv (emit o w).
Proof.
  intros [] ? ?. split; try done.
  simpl. intros o' [Ho | Ho]%elem_of_app; [eauto |].
  apply list_elem_of_singleton in Ho as ->. done.
Qed.

Lemma Inv_markSessionActivity s w : Inv w → Inv (markSessionActivity s w).
Proof. intros. by apply Inv_setNotified, Inv_cancel. Qed.

Lemma Inv_forgetSession s w : Inv w → Inv (forgetSession s w).
Proof.
  intros H. apply (Inv_cancel s) in H.
  apply (Inv_setNotified (λ x, x ∖ {[s]})) in H.
  destruct H as [Hpq Hqp Hqf Hif Hqu Hlg].
  split; try done.
  unfold forgetSession, setActivity; simpl.
  intros s' t' H. specialize (Hqu _ _ H). simpl in Hqu.
  rewrite elem_of_difference. intros [? _]. done.
Qed.

Lemma Inv_armTimer s w :
  Inv w → pendingTimers w !! s = None → Inv (armTimer s w).
Proof.
  intros [Hpq Hqp Hqf Hif Hqu Hlg] Hs.
  split; wsimplg.
  - intros s' t'. rewrite !lookup_insert. repeat case_decide; try congruence.
    + intros Hl. apply Hpq, Hqf in Hl. lia.
    + apply Hpq.
  - intros s' t'. rewrite !lookup_insert. repeat case_decide; try congruence.
    + intros Hl. apply Hqp in Hl. congruence.
    + apply Hqp.
  - intros s' t'. rewrite lookup_insert. case_decide; [lia |].
    intros Hl. apply Hqf in Hl. lia.
  - intros r a Hl. destruct (Hif _ _ Hl). split; [lia |].
    rewrite lookup_insert. case_decide; [lia | done].
  - intros s' t'. rewrite lookup_insert, elem_of_difference, elem_of_singleton.
    case_decide; [intros _ [_ ?]; congruence |].
    intros Hl [? _]. by specialize (Hqu _ _ Hl).
  - intros o Hl. destruct (Hlg _ Hl). split; [lia |].
    rewrite lookup_insert. case_decide; [lia | done].
Qed.

Lemma Inv_handle hook event w : Inv w → Inv (handle hook event w).
Proof.
  intros H. destruct (handle_cases hook event w);
    auto using Inv_markSessionActivity, Inv_forgetSession, Inv_armTimer.
Qed.

Lemma Inv_setActivity_remove s w :
  Inv w → Inv (setActivity (λ x, x ∖ {[s]}) w).
Proof.
  intros [Hpq Hqp Hqf Hif Hqu Hlg]. split; try done. simpl.
  intros s' t' Hl. rewrite elem_of_difference. intros [? _].
  by specialize (Hqu _ _ Hl).
Qed.

Lemma Inv_setInflight_delete r w : Inv w → Inv (setInflight (delete r) w).
Proof.
  intros [Hpq Hqp Hqf Hif Hqu Hlg]. split; try done. simpl.
  intros r' a. rewrite lookup_delete. case_decide; [done | apply Hif].
Qed.

Lemma Inv_setInflight_insert r a w :
  Inv w → r < nextTimer w → timerQueue w !! r = None →
  Inv (setInflight (<[r := a]>) w).
Proof.
  intros [Hpq Hqp Hqf Hif Hqu Hlg] ? ?. split; try done. simpl.
  intros r' a'. rewrite lookup_insert. case_decide; [by intros; subst | apply Hif].
Qed.

(** A timeout that fires leaves the table and the hook's record of it. *)
Lemma Inv_fired t s w :
  Inv w → timerQueue w !! t = Some s →
  Inv (setPending (delete s) (clearTimeout t w)).
Proof.
  intros [Hpq Hqp Hqf Hif Hqu Hlg] Hts.
  pose proof (Hqp _ _ Hts) as Hs.
  split; wsimplg.
  - intros s' t'. rewrite !lookup_delete. repeat case_decide; try done.
    + intros Hl. subst t'. apply Hpq in Hl. congruence.
    + apply Hpq.
  - intros s' t'. rewrite !lookup_delete. repeat case_decide; try done.
    + intros Hl. subst s'. apply Hqp in Hl. congruence.
    + apply Hqp.
  - intros s' t'. rewrite lookup_delete. case_decide; [done | apply Hqf].
  - intros r a Hl. destruct (Hif _ _ Hl) as [? ?]. split; [done |].
    rewrite lookup_delete. by case_decide.
  - intros s' t'. rewrite lookup_delete. case_decide; [done | apply Hqu].
  - intros o Hl. destruct (Hlg _ Hl) as [? ?]. split; [done |].
    rewrite lookup_delete. by case_decide.
Qed.

Section Invariant.

Variable hook : Hook.

Lemma dispatch_Inv r s w :
  Inv w → r < nextTimer w → timerQueue w !! r = None →
  Inv (dispatch hook r s w).2 ∧ sameTimers w (dispatch hook r s w).2.
Proof.
  intros Hi ? ?. split; [| done]. unfold dispatch. cbn [snd].
  apply Inv_emit; [apply Inv_emit; [by apply Inv_setNotified | done | done] | done | done].
Qed.

Lemma afterTodo_Inv r s resp w :
  Inv w → r < nextTimer w → timerQueue w !! r = None →
  Inv (afterTodo hook r s resp w).2 ∧ sameTimers w (afterTodo hook r s resp w).2.
Proof.
  intros Hi ? ?. unfold afterTodo.
  destruct (hasIncompleteTodos resp); [done | by apply dispatch_Inv].
Qed.

Lemma afterSend_Inv r s o w :
  Inv w → r < nextTimer w → timerQueue w !! r = None →
  Inv (afterSend hook r s o w).2 ∧ sameTimers w (afterSend hook r s o w).2.
Proof.
  intros Hi ? ?. unfold afterSend, tryCatch, awaited.
  destruct o; [| done].
  destruct (playSound _ && _); [| done].
  split; [| done]. by apply Inv_emit.
Qed.

Lemma afterSound_Inv r s o w :
  Inv w → r < nextTimer w → timerQueue w !! r = None →
  Inv (afterSound r s o w).2 ∧ sameTimers w (afterSound r s o w).2.
Proof. intros Hi ? ?. unfold afterSound, tryCatch, awaited. by destruct o. Qed.

Lemma executeNotification_Inv r s w :
  Inv (setPending (delete s) w) → r < nextTimer w → timerQueue w !! r = None →
  Inv (executeNotification hook r s w).2 ∧
  sameTimers w (executeNotification hook r s w).2.
Proof.
  intros Hd ? ?. unfold executeNotification.
  repeat case_decide; cbn [snd].
  - split; [by apply Inv_setActivity_remove | done].
  - done.
  - destruct (skipIfIncompleteTodos _).
    + split; [by apply Inv_emit | done].
    + by apply (dispatch_Inv r s) in Hd.
Qed.

Lemma settle_Inv r s cw :
  Inv cw.2 → r < nextTimer cw.2 → timerQueue cw.2 !! r = None →
  Inv (settle r s cw).
Proof.
  destruct cw as [[| a |] w]; cbn [snd settle]; intros Hi ? ?.
  - apply Inv_emit; [by apply Inv_setInflight_delete | done | done].
  - by apply Inv_setInflight_insert.
  - apply Inv_emit; [by apply Inv_setInflight_delete | done | done].
Qed.

Lemma Inv_step w l w' : Inv w → step hook w l = Some w' → Inv w'.
Proof.
  intros Hi Hstep. destruct l as [event | t | r resp | r o | r o]; simpl in Hstep.
  - injection Hstep as <-. by apply Inv_handle.
  - destruct (timerQueue w !! t) as [s |] eqn:Hts; [| done].
    injection Hstep as <-.
    pose proof (inv_queue_fresh _ Hi _ _ Hts) as Hlt.
    destruct (executeNotification_Inv t s (clearTimeout t w)) as [Hi' [Hn Hq]].
    + by apply Inv_fired.
    + done.
    + simpl. apply lookup_delete_eq.
    + apply settle_Inv; [done | by rewrite Hn |].
      rewrite Hq. simpl. apply lookup_delete_eq.
  - destruct (inflight w !! r) as [[s | s | s] |] eqn:Hr; try done.
    injection Hstep as <-.
    destruct (inv_inflight _ Hi _ _ Hr) as [Hlt Hq].
    destruct (afterTodo_Inv r s resp w Hi Hlt Hq) as [Hi' [Hn Hq']].
    apply settle_Inv; [done | by rewrite Hn | by rewrite Hq'].
  - destruct (inflight w !! r) as [[s | s | s] |] eqn:Hr; try done.
    injection Hstep as <-.
    destruct (inv_inflight _ Hi _ _ Hr) as [Hlt Hq].
    destruct (afterSend_Inv r s o w Hi Hlt Hq) as [Hi' [Hn Hq']].
    apply settle_Inv; [done | by rewrite Hn | by rewrite Hq'].
  - destruct (inflight w !! r) as [[s | s | s] |] eqn:Hr; try done.
    injection Hstep as <-.
    destruct (inv_inflight _ Hi _ _ Hr) as [Hlt Hq].
    destruct (afterSound_Inv r s o w Hi Hlt Hq) as [Hi' [Hn Hq']].
    apply settle_Inv; [done | by rewrite Hn | by rewrite Hq'].
Qed.

Lemma Inv_run ls : ∀ w w', Inv w → run hook w ls = Some w' → Inv w'.
Proof.
  induction ls as [| l ls IH]; simpl; intros w w' Hi Hrun.
  - by injection Hrun as <-.
  - destruct (step hook w l) as [w1 |] eqn:Hstep; [| done].
    eapply IH; [| done]. by eapply Inv_step.
Qed.

Lemma reachable_Inv w : reachable hook w → Inv w.
Proof. intros [ls Hrun]. eapply Inv_run; [apply Inv_initial | done]. Qed.

End Invariant.

(** ** Calls and the notifications they send *)

Lemma sendCallsOf_app r l1 l2 :
  sendCallsOf r (l1 ++ l2) = sendCallsOf r l1 ++ sendCallsOf r l2.
Proof. apply List.filter_app. Qed.

Lemma sendCallsOf_other r o l :
  obsCall o ≠ r → sendCallsOf r (l ++ [o]) = sendCallsOf r l.
Proof.
  intros Hne. rewrite sendCallsOf_app. simpl.
  destruct (Nat.eqb_spec (obsCall o) r); [done |].
  by rewrite andb_false_r, app_nil_r.
Qed.

Lemma sendCallsOf_not_send r o l :
  isSendCall o = false → sendCallsOf r (l ++ [o]) = sendCallsOf r l.
Proof.
  intros Hne. rewrite sendCallsOf_app. simpl.
  by rewrite Hne, app_nil_r.
Qed.

Lemma sendCallsOf_nil r l :
  (∀ o, o ∈ l → obsCall o ≠ r) → sendCallsOf r l = [].
Proof.
  induction l as [| o l IH]; [done |]. intros H. simpl.
  destruct (Nat.eqb_spec (obsCall o) r) as [Heq | _].
  - exfalso. eapply H; [left | done].
  - rewrite andb_false_r. apply IH. intros o' Ho'. apply H. by right.
Qed.

Lemma sendCallsFor_app s l1 l2 :
  sendCallsFor s (l1 ++ l2) = sendCallsFor s l1 ++ sendCallsFor s l2.
Proof. apply List.filter_app. Qed.

Section Calls.

Variable hook : Hook.

Lemma pastGate_step r w l w' :
  pastGate r w → step hook w l = Some w' →
  pastGate r w' ∧ sendCallsOf r (log w') = sendCallsOf r (log w).
Proof.
  intros (Hlt & Hq & Hfl) Hstep.
  destruct l as [event | t | r' resp | r' o | r' o]; simpl in Hstep.
  - injection Hstep as <-. rewrite handle_log. split; [| done].
    split; [pose proof (handle_nextTimer hook event w); lia |].
    split; [by apply handle_queue_None |]. by rewrite handle_inflight.
  - destruct (timerQueue w !! t) as [s |] eqn:Hts; [| done].
    injection Hstep as <-.
    assert (t ≠ r) by congruence.
    unfold executeNotification.
    repeat case_decide; [| | destruct (skipIfIncompleteTodos _)];
      unfold pastGate; wsimpl;
      rewrite ?sendCallsOf_other by done;
      (split; [| done]); (split; [done |]);
      (split; [rewrite lookup_delete; by case_decide |]);
      intros s'; rewrite ?lookup_delete, ?lookup_insert; by case_decide.
  - destruct (inflight w !! r') as [[s | s | s] |] eqn:Hr; try done.
    injection Hstep as <-.
    assert (r' ≠ r) by (intros ->; by eapply Hfl).
    unfold afterTodo. destruct (hasIncompleteTodos resp);
      unfold pastGate; wsimpl;
      rewrite ?sendCallsOf_other by done;
      (split; [| done]); (split; [done |]); (split; [done |]);
      intros s'; rewrite ?lookup_delete, ?lookup_insert; by case_decide.
  - destruct (inflight w !! r') as [[s | s | s] |] eqn:Hr; try done.
    injection Hstep as <-.
    unfold afterSend, tryCatch, awaited.
    destruct o; [destruct (playSound _ && _) |];
      unfold pastGate; wsimpl;
      rewrite ?sendCallsOf_not_send by done;
      (split; [| done]); (split; [done |]); (split; [done |]);
      intros s'; rewrite ?lookup_delete, ?lookup_insert; by case_decide.
  - destruct (inflight w !! r') as [[s | s | s] |] eqn:Hr; try done.
    injection Hstep as <-.
    unfold afterSound, tryCatch, awaited.
    destruct o; unfold pastGate; wsimpl;
      rewrite ?sendCallsOf_not_send by done;
      (split; [| done]); (split; [done |]); (split; [done |]);
      intros s'; rewrite ?lookup_delete, ?lookup_insert; by case_decide.
Qed.

Lemma pastGate_run ls : ∀ r w w',
  pastGate r w → run hook w ls = Some w' →
  pastGate r w' ∧ sendCallsOf r (log w') = sendCallsOf r (log w).
Proof.
  induction ls as [| l ls IH]; simpl; intros r w w' Hp Hrun.
  - by injection Hrun as <-.
  - destruct (step hook w l) as [w1 |] eqn:Hstep; [| done].
    destruct (pastGate_step _ _ _ _ Hp Hstep) as [Hp1 <-].
    by eapply IH.
Qed.



(** Nothing in the log comes from a call whose timeout is still live. *)
Lemma live_timer_silent w t s :
  Inv w → timerQueue w !! t = Some s → sendCallsOf t (log w) = [].
Proof.
  intros Hi Hts. apply sendCallsOf_nil. intros o Ho Heq.
  destruct (inv_log _ Hi _ Ho) as [_ Hq]. congruence.
Qed.


End Calls.

(** ** Idle confirmation (C2, C3, C4, C5) *)

Section Confirmation.

Variable hook : Hook.

(** What a [session.idle] leaves behind: the session is marked notified,
    or a timeout is pending for it. *)
Lemma idle_notified_or_pending event s w :
  isIdleType (ev_type event) = true → eventSession hook event = Some s →
  s ∈ notifiedSessions (handle hook event w) ∨
  is_Some (pendingTimers (handle hook event w) !! s).
Proof.
  intros Hty Hev. rewrite (handle_idle _ _ _ _ Hev Hty).
  repeat case_decide; [by left | by right |].
  right. wsimplg. rewrite lookup_insert_eq. by eexists.
Qed.

(** A pending timeout stays pending until it fires or an activity or
    deletion event for its session is handled. *)
Lemma pending_persists w l w' s t :
  reachable hook w → pendingTimers w !! s = Some t →
  step hook w l = Some w' → l ≠ Fire t → endsEpisode hook s l = false →
  pendingTimers w' !! s = Some t.
Proof.
  intros Hi%reachable_Inv Hs Hstep Hfire Hend.
  destruct l as [event | t' | r resp | r o | r o]; cbn [step endsEpisode] in *.
  - injection Hstep as <-.
    destruct (handle_cases hook event w) as [| s0 Hev Hty | s0 Hev Hty _ Hnone | s0 Hev Hty];
      [done | | |].
    + assert (s0 ≠ s).
      { intros ->. by rewrite Hty, bool_decide_eq_true_2 in Hend. }
      unfold markSessionActivity, cancelPendingNotification.
      destruct (pendingTimers w !! s0); wsimplg;
        rewrite ?lookup_delete_ne by done; done.
    + assert (s0 ≠ s) by congruence.
      wsimplg. by rewrite lookup_insert_ne.
    + assert (s0 ≠ s).
      { intros ->. by rewrite Hty, orb_true_r, bool_decide_eq_true_2 in Hend. }
      unfold forgetSession, cancelPendingNotification.
      destruct (pendingTimers w !! s0); wsimplg;
        rewrite ?lookup_delete_ne by done; done.
  - destruct (timerQueue w !! t') as [s0 |] eqn:Hts; [| done].
    injection Hstep as <-.
    assert (s0 ≠ s).
    { intros ->. apply (inv_queue_pending _ Hi) in Hts. congruence. }
    unfold executeNotification.
    repeat case_decide; [| | destruct (skipIfIncompleteTodos _)]; wsimplg;
      by rewrite lookup_delete_ne.
  - destruct (inflight w !! r) as [[s0 | s0 | s0] |]; try done.
    injection Hstep as <-. unfold afterTodo.
    by destruct (hasIncompleteTodos resp).
  - destruct (inflight w !! r) as [[s0 | s0 | s0] |]; try done.
    injection Hstep as <-. unfold afterSend, tryCatch, awaited.
    destruct o; [destruct (playSound _ && _) |]; done.
  - destruct (inflight w !! r) as [[s0 | s0 | s0] |]; try done.
    injection Hstep as <-. unfold afterSound, tryCatch, awaited.
    by destruct o.
Qed.

(** C3: when a timeout [t] is pending for session [s] (a [session.idle]
    armed it and it has not fired) and an activity event
    ([session.created], [session.updated] or [message.updated]) for [s] is
    handled, the timeout is cleared and the hook forgets it; in every
    continuation of the run the timeout never fires and the confirmation
    call it would have started never calls [sendNotification]. *)
Theorem activity_cancels_notification w s t event :
  reachable hook w →
  pendingTimers w !! s = Some t →
  isActivityType (ev_type event) = true →
  eventSession hook event = Some s →
  pendingTimers (handle hook event w) !! s = None ∧
  timerQueue (handle hook event w) !! t = None ∧
  ∀ ls w', run hook (handle hook event w) ls = Some w' →
           timerQueue w' !! t = None ∧ sendCallsOf t (log w') = [].
Proof.
  intros Hi%reachable_Inv Hs Hty Hev.
  rewrite (handle_activity _ _ _ _ Hev Hty).
  pose proof (inv_pending_queue _ Hi _ _ Hs) as Hts.
  assert (Hp : pastGate t (markSessionActivity s w)).
  { unfold pastGate, markSessionActivity, cancelPendingNotification.
    rewrite Hs. wsimplg.
    split; [by eapply inv_queue_fresh |].
    split; [apply lookup_delete_eq |].
    intros s' Hfl. destruct (inv_inflight _ Hi _ _ Hfl). congruence. }
  assert (Hl : log (markSessionActivity s w) = log w).
  { unfold markSessionActivity, cancelPendingNotification.
    by destruct (pendingTimers w !! s). }
  split; [| split].
  - unfold markSessionActivity, cancelPendingNotification. rewrite Hs. wsimplg.
    apply lookup_delete_eq.
  - apply Hp.
  - intros ls w' Hrun.
    destruct (pastGate_run hook ls _ _ _ Hp Hrun) as [(_ & Hq & _) Hsend].
    split; [done |]. rewrite Hsend, Hl. by eapply live_timer_silent.
Qed.




(** C4: in every reachable state a session has at most one live timeout,
    and it is the one recorded in [pendingTimers]; a [session.idle] event
    for a session that already has a pending timeout, or is already marked
    notified, leaves the whole state unchanged (so it arms nothing). *)
Theorem single_pending_timer w :
  reachable hook w →
  (∀ s t1 t2, timerQueue w !! t1 = Some s → timerQueue w !! t2 = Some s →
              t1 = t2) ∧
  (∀ s t, timerQueue w !! t = Some s ↔ pendingTimers w !! s = Some t) ∧
  (∀ event s,
     isIdleType (ev_type event) = true → eventSession hook event = Some s →
     is_Some (pendingTimers w !! s) ∨ s ∈ notifiedSessions w →
     handle hook event w = w).
Proof.
  intros Hi%reachable_Inv. split; [| split].
  - intros s t1 t2 H1%(inv_queue_pending _ Hi) H2%(inv_queue_pending _ Hi).
    congruence.
  - intros s t. split;
      [apply (inv_queue_pending _ Hi) | apply (inv_pending_queue _ Hi)].
  - intros event s Hty Hev Hguard. rewrite (handle_idle _ _ _ _ Hev Hty).
    destruct Hguard; repeat case_decide; done.
Qed.



End Confirmation.

(** ** Unsupported platform (C9) *)

(** C9: when [detectPlatform] resolves to [unsupported], the handler
    returns the world it was given for every event: no per-session state
    changes, no timeout is armed, nothing is sent or queried; so no task
    other than event delivery is ever enabled and every run stays in the
    initial world. *)
Theorem unsupported_platform_noop os config :
  detectPlatform os = unsupported →
  (∀ event w, handle (createSessionNotification os config) event w = w) ∧
  (∀ ls w, run (createSessionNotification os config) initial ls = Some w →
           w = initial).
Proof.
  intros Hos.
  assert (Hh : ∀ event w,
    handle (createSessionNotification os config) event w = w).
  { intros event w. unfold handle.
    cbn [currentPlatform createSessionNotification].
    by rewrite decide_True. }
  split; [done |].
  induction ls as [| l ls IH]; intros w Hrun.
  - by injection Hrun as <-.
  - destruct l; [| by simpl in Hrun ..].
    cbn [run step] in Hrun. rewrite Hh in Hrun. by apply IH.
Qed.

(** ** Sessions do not interfere (C10) *)

Lemma sessionState_ext w w' T :
  (T ∈ notifiedSessions w' ↔ T ∈ notifiedSessions w) →
  pendingTimers w' !! T = pendingTimers w !! T →
  (T ∈ sessionActivitySinceIdle w' ↔ T ∈ sessionActivitySinceIdle w) →
  sessionState w' T = sessionState w T.
Proof.
  intros Hn Hp Ha. unfold sessionState.
  by rewrite (bool_decide_ext _ _ Hn), Hp, (bool_decide_ext _ _ Ha).
Qed.

Section Frame.

Variable hook : Hook.

Lemma cancel_frame s T w :
  T ≠ s →
  sessionState (cancelPendingNotification s w) T = sessionState w T.
Proof.
  intros Hne. unfold cancelPendingNotification.
  destruct (pendingTimers w !! s); apply sessionState_ext; wsimplg;
    rewrite ?lookup_delete_ne by done; try done; set_frame.
Qed.

Lemma markSessionActivity_frame s T w :
  T ≠ s → sessionState (markSessionActivity s w) T = sessionState w T.
Proof.
  intros Hne. rewrite <- (cancel_frame s T w Hne).
  apply sessionState_ext; wsimplg; try done; set_frame.
Qed.

Lemma forgetSession_frame s T w :
  T ≠ s → sessionState (forgetSession s w) T = sessionState w T.
Proof.
  intros Hne. rewrite <- (cancel_frame s T w Hne).
  apply sessionState_ext; wsimplg; try done; set_frame.
Qed.

Lemma armTimer_frame s T w :
  T ≠ s → sessionState (armTimer s w) T = sessionState w T.
Proof.
  intros Hne. apply sessionState_ext; wsimplg;
    rewrite ?lookup_insert_ne by done; try done; set_frame.
Qed.

Lemma settle_frame r s cw T : sessionState (settle r s cw) T = sessionState cw.2 T.
Proof. by destruct cw as [[| a |] w]. Qed.

Lemma dispatch_frame r s T w :
  T ≠ s → sessionState (dispatch hook r s w).2 T = sessionState w T.
Proof. intros Hne. apply sessionState_ext; wsimplg; try done; set_frame. Qed.

Lemma executeNotification_frame r s T w :
  T ≠ s →
  sessionState (executeNotification hook r s (clearTimeout r w)).2 T =
  sessionState w T.
Proof.
  intros Hne. unfold executeNotification.
  repeat case_decide; [| | destruct (skipIfIncompleteTodos _)];
    apply sessionState_ext; wsimplg;
    rewrite ?lookup_delete_ne by done; try done; set_frame.
Qed.

Lemma afterSend_frame r s o T w :
  sessionState (afterSend hook r s o w).2 T = sessionState w T.
Proof.
  unfold afterSend, tryCatch, awaited.
  destruct o; [destruct (playSound _ && _) |]; done.
Qed.

Lemma afterSound_frame r s o T w :
  sessionState (afterSound r s o w).2 T = sessionState w T.
Proof. unfold afterSound, tryCatch, awaited. by destruct o. Qed.

Lemma handle_queue_frame event w t T :
  timerQueue (handle hook event w) !! t = Some T →
  timerQueue w !! t = Some T ∨ eventSession hook event = Some T.
Proof.
  destruct (handle_cases hook event w) as [| s Hev _ | s Hev _ _ _ | s Hev _];
    [by left | | |].
  - unfold markSessionActivity, cancelPendingNotification.
    destruct (pendingTimers w !! s); wsimplg; [| by left].
    rewrite lookup_delete. case_decide; [done | by left].
  - wsimplg. rewrite lookup_insert. case_decide; [| by left].
    intros [= <-]. by right.
  - unfold forgetSession, cancelPendingNotification.
    destruct (pendingTimers w !! s); wsimplg; [| by left].
    rewrite lookup_delete. case_decide; [done | by left].
Qed.

(** C10: a task of the event loop that works for session [S] (an event
    whose identifier the handler reads as [S], the firing of a timeout
    whose callback captured [S], or the resumption of a confirmation call
    for [S]) leaves [notified], [pendingTimer] and [activitySinceIdle] of
    every other session as they were; the only timeouts and suspended calls
    it can add are for [S], so the confirmation call an event arms works
    for the event's own session. *)
Theorem other_sessions_untouched w l w' :
  step hook w l = Some w' →
  (∀ T, labelSession hook w l ≠ Some T → sessionState w' T = sessionState w T) ∧
  (∀ t T, timerQueue w' !! t = Some T →
          timerQueue w !! t = Some T ∨ labelSession hook w l = Some T) ∧
  (∀ r a, inflight w' !! r = Some a →
          inflight w !! r = Some a ∨
          labelSession hook w l = Some (awaitSession a)).
Proof.
  intros Hstep.
  destruct l as [event | t | r resp | r o | r o]; cbn [step labelSession] in *.
  - injection Hstep as <-. split; [| split].
    + intros T HT.
      destruct (handle_cases hook event w) as [| s Hev _ | s Hev _ _ _ | s Hev _];
        [done | | |].
      * apply markSessionActivity_frame. congruence.
      * apply armTimer_frame. congruence.
      * apply forgetSession_frame. congruence.
    + apply handle_queue_frame.
    + intros r a. rewrite handle_inflight. by left.
  - destruct (timerQueue w !! t) as [s |] eqn:Hts; [| done].
    injection Hstep as <-. split; [| split].
    + intros T HT. rewrite settle_frame.
      apply executeNotification_frame. congruence.
    + intros t' T. unfold executeNotification.
      repeat case_decide; [| | destruct (skipIfIncompleteTodos _)]; wsimplg;
        rewrite lookup_delete; case_decide; try done; by left.
    + intros r a. unfold executeNotification.
      repeat case_decide; [| | destruct (skipIfIncompleteTodos _)]; wsimplg;
        rewrite ?lookup_delete, ?lookup_insert; case_decide;
        try done; try (by left); intros [= <-]; by right.
  - destruct (inflight w !! r) as [[s | s | s] |] eqn:Hr; try done.
    injection Hstep as <-. cbn [fmap option_fmap option_map awaitSession].
    split; [| split].
    + intros T HT. rewrite settle_frame. unfold afterTodo.
      destruct (hasIncompleteTodos resp); [done |].
      apply dispatch_frame. congruence.
    + intros t T. unfold afterTodo.
      destruct (hasIncompleteTodos resp); wsimplg; by left.
    + intros r' a. unfold afterTodo.
      destruct (hasIncompleteTodos resp); wsimplg;
        rewrite ?lookup_delete, ?lookup_insert; case_decide;
        try done; try (by left); intros [= <-]; by right.
  - destruct (inflight w !! r) as [[s | s | s] |] eqn:Hr; try done.
    injection Hstep as <-. cbn [fmap option_fmap option_map awaitSession].
    split; [| split].
    + intros T HT. rewrite settle_frame. apply afterSend_frame.
    + intros t T. unfold afterSend, tryCatch, awaited.
      destruct o; [destruct (playSound _ && _) |]; wsimplg; by left.
    + intros r' a. unfold afterSend, tryCatch, awaited.
      destruct o; [destruct (playSound _ && _) |]; wsimplg;
        rewrite ?lookup_delete, ?lookup_insert; case_decide;
        try done; try (by left); intros [= <-]; by right.
  - destruct (inflight w !! r) as [[s | s | s] |] eqn:Hr; try done.
    injection Hstep as <-. cbn [fmap option_fmap option_map awaitSession].
    split; [| split].
    + intros T HT. rewrite settle_frame. apply afterSound_frame.
    + intros t T. unfold afterSound, tryCatch, awaited.
      destruct o; wsimplg; by left.
    + intros r' a. unfold afterSound, tryCatch, awaited.
      destruct o; wsimplg;
        rewrite ?lookup_delete, ?lookup_insert; case_decide;
        try done; try (by left); intros [= <-]; by right.
Qed.

End Frame.

(** ** Commit before dispatch, errors swallowed (C7) *)

Lemma committedFirst_snoc l o :
  committedFirst l →
  (isDispatchCall o = true → AddNotified (obsCall o) (obsSession o) ∈ l) →
  committedFirst (l ++ [o]).
Proof.
  intros Hl Ho l1 o' l2 Heq Hd.
  destruct l2 as [| x l2' _] using rev_ind.
  - apply (app_inj_tail l l1 o o') in Heq as [<- <-]. auto.
  - rewrite app_comm_cons, app_assoc in Heq.
    apply app_inj_tail in Heq as [-> _]. by eapply Hl.
Qed.

Lemma neverRejected_snoc l o :
  neverRejected l → (∀ r s, o ≠ Settled r s Rejected) → neverRejected (l ++ [o]).
Proof.
  intros Hl Ho r s [Hin | Hin]%elem_of_app; [by eapply Hl |].
  apply list_elem_of_singleton in Hin. by eapply Ho.
Qed.

(** The three parts of [Committed] after a step that appended to the log
    and updated the entry of one call; [Hfl] is [com_inflight] before. *)
Ltac commit_order Hfl :=
  repeat (apply committedFirst_snoc;
          cbn [isDispatchCall isSendCall isSoundCall orb obsCall obsSession]);
  try done; intros _;
  first [ apply Hfl; by auto
        | rewrite elem_of_app, list_elem_of_singleton; by right ].

Ltac commit_inflight Hfl :=
  let Hc := fresh "Hc" in
  intros ? ?; rewrite ?lookup_delete, ?lookup_insert; case_decide;
  rewrite ?elem_of_app, ?list_elem_of_singleton;
  intros [Hc | Hc]; try done;
  try (left; left; apply Hfl; by auto);
  try (left; apply Hfl; by auto);
  injection Hc as <-; subst;
  first [ by auto | left; apply Hfl; by auto ].

Ltac commit_settled :=
  repeat (apply neverRejected_snoc; [| done]); done.

Ltac commit_all Hfl :=
  split; wsimplg; [commit_order Hfl | commit_inflight Hfl | commit_settled].

Section Commit.

Variable hook : Hook.

Lemma Committed_initial : Committed initial.
Proof.
  split; simpl.
  - intros [| ? ?] ? ? ?; done.
  - intros r s. rewrite lookup_empty. by intros [? | ?].
  - intros r s Hin. by apply elem_of_nil in Hin.
Qed.

(** No segment of [executeNotification] lets an exception escape. *)
Lemma segments_never_throw r s w :
  (executeNotification hook r s w).1 ≠ Thrown ∧
  (∀ resp, (afterTodo hook r s resp w).1 ≠ Thrown) ∧
  (∀ o, (afterSend hook r s o w).1 ≠ Thrown) ∧
  (∀ o, (afterSound r s o w).1 ≠ Thrown).
Proof.
  unfold executeNotification, afterTodo, afterSend, afterSound, tryCatch,
    awaited, dispatch.
  repeat split; intros;
    repeat (match goal with
            | |- context [decide ?P] => destruct (decide P)
            | |- context [if ?b then _ else _] => destruct b
            | |- context [match ?o with Fulfilled => _ | Rejected => _ end] =>
                destruct o
            end); done.
Qed.

(** Without its [try]/[catch], the rejection would escape. *)
Lemma rejection_escapes_without_catch k w : awaited Rejected k w = (Thrown, w).
Proof. reflexivity. Qed.

Lemma Committed_step w l w' :
  Committed w → step hook w l = Some w' → Committed w'.
Proof.
  intros [Hord Hfl Hrej] Hstep.
  destruct l as [event | t | r resp | r o | r o]; cbn [step] in Hstep.
  - injection Hstep as <-.
    split; rewrite ?handle_log, ?handle_inflight; done.
  - destruct (timerQueue w !! t) as [s |] eqn:Hts; [| done].
    injection Hstep as <-. unfold executeNotification.
    repeat case_decide; [| | destruct (skipIfIncompleteTodos _)];
      commit_all Hfl.
  - destruct (inflight w !! r) as [[s | s | s] |] eqn:Hr; try done.
    injection Hstep as <-. unfold afterTodo.
    destruct (hasIncompleteTodos resp); commit_all Hfl.
  - destruct (inflight w !! r) as [[s | s | s] |] eqn:Hr; try done.
    injection Hstep as <-. unfold afterSend, tryCatch, awaited.
    destruct o; [destruct (playSound _ && _) |]; commit_all Hfl.
  - destruct (inflight w !! r) as [[s | s | s] |] eqn:Hr; try done.
    injection Hstep as <-. unfold afterSound, tryCatch, awaited.
    destruct o; commit_all Hfl.
Qed.

Lemma reachable_Committed w : reachable hook w → Committed w.
Proof.
  intros [ls Hrun]. revert Hrun. generalize Committed_initial.
  generalize initial. induction ls as [| l ls IH]; simpl; intros w0 Hc Hrun.
  - by injection Hrun as <-.
  - destruct (step hook w0 l) as [w1 |] eqn:Hstep; [| done].
    eapply IH; [| done]. by eapply Committed_step.
Qed.

Lemma afterSend_keeps_notified r s o w :
  (afterSend hook r s o w).1 ≠ Thrown ∧
  notifiedSessions (afterSend hook r s o w).2 = notifiedSessions w.
Proof.
  split; [apply segments_never_throw |].
  unfold afterSend, tryCatch, awaited.
  destruct o; [destruct (playSound _ && _) |]; done.
Qed.

Lemma afterSound_keeps_notified r s o w :
  (afterSound r s o w).1 ≠ Thrown ∧
  notifiedSessions (afterSound r s o w).2 = notifiedSessions w.
Proof.
  split; [apply (segments_never_throw r s w) |].
  unfold afterSound, tryCatch, awaited. by destruct o.
Qed.

Lemma settle_notified r s cw :
  notifiedSessions (settle r s cw) = notifiedSessions cw.2.
Proof. by destruct cw as [[| a |] w]. Qed.

(** C7: [dispatch] records the session as notified and only then calls
    [sendNotification]; in every reachable log each [sendNotification] or
    [playSound] call comes after the same confirmation call recorded the
    session as notified.  Whether the awaited [sendNotification] or
    [playSound] fulfills or rejects, the resumed segment never ends with an
    escaping exception and leaves [notifiedSessions] as it was; no promise
    of [executeNotification] is ever rejected. *)
Theorem dispatch_commits_then_swallows_errors w :
  reachable hook w →
  committedFirst (log w) ∧
  neverRejected (log w) ∧
  (∀ r s w0,
     s ∈ notifiedSessions (dispatch hook r s w0).2 ∧
     log (dispatch hook r s w0).2 =
       log w0 ++ [AddNotified r s; theSendCall hook r s]) ∧
  (∀ r s o w0,
     (afterSend hook r s o w0).1 ≠ Thrown ∧
     notifiedSessions (afterSend hook r s o w0).2 = notifiedSessions w0) ∧
  (∀ r s o w0,
     (afterSound r s o w0).1 ≠ Thrown ∧
     notifiedSessions (afterSound r s o w0).2 = notifiedSessions w0) ∧
  (∀ r o w', step hook w (SendSettles r o) = Some w' →
             notifiedSessions w' = notifiedSessions w) ∧
  (∀ r o w', step hook w (SoundSettles r o) = Some w' →
             notifiedSessions w' = notifiedSessions w).
Proof.
  intros [Hord _ Hrej]%reachable_Committed.
  split; [done |]. split; [done |].
  split; [| split; [apply afterSend_keeps_notified |];
            split; [apply afterSound_keeps_notified |]; split].
  - intros r s w0. wsimplg. split.
    + rewrite elem_of_union, elem_of_singleton. by left.
    + by rewrite <- app_assoc.
  - intros r o w' Hstep. cbn [step] in Hstep.
    destruct (inflight w !! r) as [[s | s | s] |]; try done.
    injection Hstep as <-. rewrite settle_notified.
    apply afterSend_keeps_notified.
  - intros r o w' Hstep. cbn [step] in Hstep.
    destruct (inflight w !! r) as [[s | s | s] |]; try done.
    injection Hstep as <-. rewrite settle_notified.
    apply afterSound_keeps_notified.
Qed.

End Commit.

(** ** The activity mark (C8) *)

Section ActivityMark.

Variable hook : Hook.

(** C8, as amended: in every reachable state, a session whose
    [activitySinceIdle] mark is set has no pending timeout and no live
    timeout at all, so no timeout of that session can fire while the mark
    is set; the only tasks that clear the mark are the handling of a
    [session.idle] for that session that arms a timeout, and the handling
    of a [session.deleted] for it.  An activity event sets the mark in any
    state, whether or not a timeout was pending, and a [session.idle] for
    a marked session that is not marked notified arms a timeout and clears
    the mark. *)
Theorem activity_mark_lifecycle w s :
  reachable hook w →
  s ∈ sessionActivitySinceIdle w →
  pendingTimers w !! s = None ∧
  (∀ t, timerQueue w !! t ≠ Some s) ∧
  (∀ l w', step hook w l = Some w' → s ∉ sessionActivitySinceIdle w' →
    ∃ event, l = Deliver event ∧ eventSession hook event = Some s ∧
      ((isIdleType (ev_type event) = true ∧ w' = armTimer s w) ∨
       (isDeletedType (ev_type event) = true ∧ w' = forgetSession s w))) ∧
  (∀ event w0,
     isActivityType (ev_type event) = true → eventSession hook event = Some s →
     s ∈ sessionActivitySinceIdle (handle hook event w0)) ∧
  (∀ event,
     isIdleType (ev_type event) = true → eventSession hook event = Some s →
     s ∉ notifiedSessions w →
     handle hook event w = armTimer s w ∧
     s ∉ sessionActivitySinceIdle (armTimer s w)).
Proof.
  intros Hi%reachable_Inv Hs.
  assert (Hp : pendingTimers w !! s = None).
  { destruct (pendingTimers w !! s) as [t |] eqn:Hp; [| done].
    by destruct (inv_quiet _ Hi _ _ Hp). }
  assert (Hq : ∀ t, timerQueue w !! t ≠ Some s).
  { intros t Ht%(inv_queue_pending _ Hi). congruence. }
  split; [done |]. split; [done |].
  split; [| split].
  2: { intros event w0 Hty Hev. rewrite (handle_activity _ _ _ _ Hev Hty).
       unfold markSessionActivity. wsimplg. apply cancel_sessionState. }
  2: { intros event Hty Hev Hn. rewrite (handle_idle _ _ _ _ Hev Hty).
       rewrite decide_False by done.
       rewrite decide_False by (rewrite Hp; by intros [? ?]).
       split; [done |]. wsimplg.
       rewrite elem_of_difference, elem_of_singleton. by intros [_ ?]. }
  intros l w' Hstep Hgone.
  destruct l as [event | t | r resp | r o | r o]; cbn [step] in Hstep.
  - injection Hstep as <-. exists event. split; [done |].
    destruct (handle_cases hook event w) as [| s0 Hev Hty | s0 Hev Hty _ _ | s0 Hev Hty];
      [done | | |].
    + exfalso. apply Hgone. unfold markSessionActivity. wsimplg.
      by apply cancel_activity.
    + assert (s0 = s) as ->.
      { destruct (decide (s0 = s)); [done |]. exfalso. apply Hgone. wsimplg.
        rewrite elem_of_difference, elem_of_singleton. split; [done | congruence]. }
      auto.
    + assert (s0 = s) as ->.
      { destruct (decide (s0 = s)); [done |]. exfalso. apply Hgone.
        unfold forgetSession. wsimplg.
        rewrite elem_of_difference, elem_of_singleton.
        split; [by apply cancel_activity | congruence]. }
      auto.
  - exfalso. destruct (timerQueue w !! t) as [s0 |] eqn:Hts; [| done].
    injection Hstep as <-. apply Hgone.
    assert (s0 ≠ s) by (intros ->; by eapply Hq).
    unfold executeNotification.
    repeat case_decide; [| | destruct (skipIfIncompleteTodos _)]; wsimplg;
      rewrite ?elem_of_difference, ?elem_of_singleton; done.
  - exfalso. destruct (inflight w !! r) as [[s0 | s0 | s0] |]; try done.
    injection Hstep as <-. apply Hgone. unfold afterTodo.
    by destruct (hasIncompleteTodos resp).
  - exfalso. destruct (inflight w !! r) as [[s0 | s0 | s0] |]; try done.
    injection Hstep as <-. apply Hgone. unfold afterSend, tryCatch, awaited.
    destruct o; [destruct (playSound _ && _) |]; done.
  - exfalso. destruct (inflight w !! r) as [[s0 | s0 | s0] |]; try done.
    injection Hstep as <-. apply Hgone. unfold afterSound, tryCatch, awaited.
    by destruct o.
Qed.

End ActivityMark.

(** ** One notification per idle episode (C1) *)

(** With [skipIfIncompleteTodos] off, [executeNotification] has no [await]
    between its test of [notifiedSessions] and the update: a session stays
    marked from its notification to the next activity or deletion event,
    and that bounds the notifications of any stretch in between. *)

Section Ungated.

Variable hook : Hook.
Hypothesis ungated : skipIfIncompleteTodos (mergedConfig hook) = false.

Lemma ungated_step s w l w' :
  noGate w → step hook w l = Some w' →
  noGate w' ∧
  ∃ extra, log w' = log w ++ extra ∧
    length (sendCallsFor s extra) ≤ 1 ∧
    (sendCallsFor s extra ≠ [] → s ∈ notifiedSessions w') ∧
    (endsEpisode hook s l = false → s ∈ notifiedSessions w →
     s ∈ notifiedSessions w' ∧ sendCallsFor s extra = []).
Proof.
  intros Hng Hstep.
  destruct l as [event | t | r resp | r o | r o]; cbn [step endsEpisode] in *.
  - injection Hstep as <-. split; [by unfold noGate; rewrite handle_inflight |].
    exists []. rewrite handle_log, app_nil_r.
    split; [done |]. split; [simpl; lia |]. split; [done |].
    intros Hend Hin.
    destruct (handle_cases hook event w) as [| s0 Hev Hty | s0 Hev Hty _ _ | s0 Hev Hty];
      [done | | done |].
    + unfold markSessionActivity. wsimplg.
      destruct (cancel_sessionState s0 w) as (_ & _ & ->).
      rewrite elem_of_difference, elem_of_singleton.
      split; [| done]. split; [done |].
      intros ->. rewrite Hty, bool_decide_eq_true_2 in Hend; done.
    + unfold forgetSession. wsimplg.
      destruct (cancel_sessionState s0 w) as (_ & _ & ->).
      rewrite elem_of_difference, elem_of_singleton.
      split; [| done]. split; [done |].
      intros ->. rewrite Hty, orb_true_r, bool_decide_eq_true_2 in Hend; done.
  - destruct (timerQueue w !! t) as [s0 |] eqn:Hts; [| done].
    injection Hstep as <-. unfold executeNotification.
    repeat case_decide; [| | rewrite ungated]; unfold noGate; wsimplg.
    + split; [intros r s'; rewrite lookup_delete; case_decide; [done | apply Hng] |].
      eexists [_]. split; [done |]. split; [simpl; lia |]. by split.
    + split; [intros r s'; rewrite lookup_delete; case_decide; [done | apply Hng] |].
      eexists [_]. split; [done |]. split; [simpl; lia |]. by split.
    + split; [intros r s'; rewrite lookup_insert; case_decide; [done | apply Hng] |].
      eexists [_; _]. rewrite <- app_assoc. split; [done |].
      cbn [sendCallsFor List.filter isSendCall obsSession andb].
      destruct (String.eqb_spec s0 s) as [-> | Hne]; simpl.
      * split; [lia |]. split; [intros _; rewrite elem_of_union, elem_of_singleton; by left |].
        intros _ Hin. done.
      * split; [lia |]. split; [done |]. intros _ Hin.
        split; [| done]. rewrite elem_of_union. by right.
  - destruct (inflight w !! r) as [[s0 | s0 | s0] |] eqn:Hr; try done.
    by destruct (Hng r s0).
  - destruct (inflight w !! r) as [[s0 | s0 | s0] |] eqn:Hr; try done.
    injection Hstep as <-. unfold afterSend, tryCatch, awaited.
    destruct o; [destruct (playSound _ && _) |]; unfold noGate; wsimplg;
      (split; [intros r' s'; rewrite ?lookup_insert, ?lookup_delete;
               case_decide; [done | apply Hng] |]);
      eexists [_]; (split; [done |]); (split; [simpl; lia |]); by split.
  - destruct (inflight w !! r) as [[s0 | s0 | s0] |] eqn:Hr; try done.
    injection Hstep as <-. unfold afterSound, tryCatch, awaited.
    destruct o; unfold noGate; wsimplg;
      (split; [intros r' s'; rewrite ?lookup_insert, ?lookup_delete;
               case_decide; [done | apply Hng] |]);
      eexists [_]; (split; [done |]); (split; [simpl; lia |]); by split.
Qed.

Lemma ungated_run s ls : ∀ w w',
  noGate w → run hook w ls = Some w' →
  noGate w' ∧
  (forallb (λ l, negb (endsEpisode hook s l)) ls = true →
   ∃ extra, log w' = log w ++ extra ∧
     length (sendCallsFor s extra) ≤ 1 ∧
     (s ∈ notifiedSessions w → sendCallsFor s extra = [])).
Proof.
  induction ls as [| l ls IH]; simpl; intros w w' Hng Hrun.
  - injection Hrun as <-. split; [done |]. intros _. exists [].
    rewrite app_nil_r.
    split; [done |]. split; [simpl; lia | done].
  - destruct (step hook w l) as [w1 |] eqn:Hstep; [| done].
    destruct (ungated_step s _ _ _ Hng Hstep)
      as (Hng1 & extra1 & Hlog1 & Hlen1 & Hset1 & Hkeep1).
    destruct (IH _ _ Hng1 Hrun) as [Hng' Hrest]. split; [done |].
    intros [Hl Hall]%andb_true_iff. apply negb_true_iff in Hl.
    destruct (Hrest Hall) as (extra2 & Hlog2 & Hlen2 & Hkeep2).
    exists (extra1 ++ extra2). rewrite Hlog2, Hlog1, <- app_assoc.
    split; [done |]. rewrite sendCallsFor_app, length_app.
    split.
    + destruct (sendCallsFor s extra1) as [| o1 rest1] eqn:He1; [simpl; lia |].
      rewrite Hkeep2 by (by apply Hset1). simpl in *. lia.
    + intros Hin. destruct (Hkeep1 Hl Hin) as [Hin1 ->].
      by rewrite Hkeep2.
Qed.

(** Without the todo gate, a stretch of a run with no activity or deletion
    for a session holds at most one notification for it. *)
Lemma ungated_once_per_episode s w ls w' :
  reachable hook w → run hook w ls = Some w' →
  forallb (λ l, negb (endsEpisode hook s l)) ls = true →
  ∃ extra, log w' = log w ++ extra ∧ length (sendCallsFor s extra) ≤ 1.
Proof.
  intros [ls0 Hrun0] Hrun Hall.
  assert (Hng : noGate w).
  { eapply (ungated_run s ls0 initial); [| done].
    intros r s'. simpl. by rewrite lookup_empty. }
  destruct (ungated_run s ls w w' Hng Hrun) as [_ Hex].
  destruct (Hex Hall) as (extra & ? & ? & _). eauto.
Qed.

End Ungated.

(** C1: with the default configuration (todo gate on) two confirmation
    calls for one session can overlap at the todo gate.  In [raceRun] the
    first [session.idle] for [S1] arrives in the initial world (no timeout
    pending, [S1] not notified) and arms timeout 0; the second arrives
    after timeout 0 fired (again no timeout pending, [S1] not notified) and
    arms timeout 1; no task of the run is an activity or deletion event
    for [S1]; nothing is sent before both timeouts have fired; yet the run
    ends with two [sendNotification] calls for [S1], both inside the idle
    episode either [session.idle] begins. *)
Theorem duplicate_notification_in_one_episode :
  sessionState initial S1 = (false, None, false) ∧
  ((λ w, pendingTimers w !! S1)
     <$> run defaultHook initial (take 1 raceRun)) = Some (Some 0) ∧
  ((λ w, sessionState w S1)
     <$> run defaultHook initial (take 2 raceRun)) =
    Some (false, None, false) ∧
  ((λ w, pendingTimers w !! S1)
     <$> run defaultHook initial (take 3 raceRun)) = Some (Some 1) ∧
  ((λ w, sendCallsFor S1 (log w))
     <$> run defaultHook initial (take 4 raceRun)) = Some [] ∧
  forallb (λ l, negb (endsEpisode defaultHook S1 l)) raceRun = true ∧
  ((λ w, sendCallsFor S1 (log w)) <$> run defaultHook initial raceRun) =
    Some [theSendCall defaultHook 0 S1; theSendCall defaultHook 1 S1].
Proof.
  split; [vm_compute; reflexivity |].
  split; [vm_compute; reflexivity |].
  split; [vm_compute; reflexivity |].
  split; [vm_compute; reflexivity |].
  split; [vm_compute; reflexivity |].
  split; vm_compute; reflexivity.
Qed.

(** ** Counterexamples to the claims as first stated *)


(** C8 as stated fails: after a single [session.created] for [S1] the
    activity mark is set although no timeout is pending and none was ever
    armed (the next handle is still 0); a [session.deleted] then clears
    the mark, with neither a timeout firing nor an idle-arm. *)
Lemma activity_mark_counterexample :
  ((λ w, (sessionState w S1, nextTimer w))
     <$> run defaultHook initial [Deliver (sessionCreated S1)]) =
    Some ((false, None, true), 0) ∧
  ((λ w, (sessionState w S1, nextTimer w))
     <$> run defaultHook initial
           [Deliver (sessionCreated S1); Deliver (sessionDeleted S1)]) =
    Some ((false, None, false), 0).
Proof. split; vm_compute; reflexivity. Qed.

(** ** Sample runs *)

Example gate_open_when_all_done :
  hasIncompleteTodos
    (TodoResolves (JsArray [todo "completed"; todo "cancelled"]) JsOther) = false.
Proof. reflexivity. Qed.

Example gate_closed_by_pending_todo :
  hasIncompleteTodos
    (TodoResolves JsNullish (JsArray [todo "completed"; todo "in_progress"])) = true.
Proof. reflexivity. Qed.

(** The scenario of the spec: one [session.idle], the timeout fires, the
    todo request finds nothing open, one notification. *)
Example idle_then_notify :
  (log <$> run defaultHook initial
             [Deliver (sessionIdle S1); Fire 0; TodoSettles 0 noTodos;
              SendSettles 0 Fulfilled]) =
  Some [TodoCall 0 S1; AddNotified 0 S1; theSendCall defaultHook 0 S1;
        Settled 0 S1 Fulfilled].
Proof. vm_compute. reflexivity. Qed.

(** Activity half-way: nothing is sent, and the timeout cannot fire. *)
Example idle_then_activity :
  (log <$> run defaultHook initial
             [Deliver (sessionIdle S1); Deliver (messageUpdated "M1" S1)]) =
  Some [] ∧
  run defaultHook initial
    [Deliver (sessionIdle S1); Deliver (messageUpdated "M1" S1); Fire 0] = None.
Proof. split; vm_compute; reflexivity. Qed.

(** Incomplete todos: nothing is sent and the session is not marked. *)
Example idle_with_open_todos :
  ((λ w, (log w, sessionState w S1)) <$> run defaultHook initial
     [Deliver (sessionIdle S1); Fire 0;
      TodoSettles 0 (TodoResolves (JsArray [todo "pending"]) JsOther)]) =
  Some ([TodoCall 0 S1; Settled 0 S1 Fulfilled], (false, None, false)).
Proof. vm_compute. reflexivity. Qed.

(** Without the gate and with sound: the notification is sent as the
    timeout fires, a repeated [session.idle] is ignored, and a rejected
    [sendNotification] ends the call quietly, without the sound. *)
Example ungated_with_sound :
  (log <$> run ungatedHook initial
             [Deliver (sessionIdle S1); Fire 0; Deliver (sessionIdle S1);
              SendSettles 0 Fulfilled; SoundSettles 0 Fulfilled]) =
  Some [AddNotified 0 S1; theSendCall ungatedHook 0 S1;
        SoundCall 0 S1 linux (getDefaultSoundPath linux);
        Settled 0 S1 Fulfilled] ∧
  ((λ w, (log w, sessionState w S1)) <$> run ungatedHook initial
     [Deliver (sessionIdle S1); Fire 0; SendSettles 0 Rejected]) =
  Some ([AddNotified 0 S1; theSendCall ungatedHook 0 S1;
         Settled 0 S1 Fulfilled], (true, None, false)).
Proof. split; vm_compute; reflexivity. Qed.

(** Any run of the hook without the gate that has no activity or deletion
    event for [S1] sends at most one notification for it. *)
Example ungated_once_for_S1 ls w' :
  run ungatedHook initial ls = Some w' →
  forallb (λ l, negb (endsEpisode ungatedHook S1 l)) ls = true →
  length (sendCallsFor S1 (log w')) ≤ 1.
Proof.
  intros Hrun Hall.
  destruct (ungated_once_per_episode ungatedHook eq_refl S1 initial ls w')
    as (extra & Hlog & Hlen); [by exists [] | done | done |].
  by rewrite Hlog.
Qed.

(** ** The theorems at concrete inputs *)

Lemma armedWorld_reachable : reachable defaultHook armedWorld.
Proof. exists [Deliver (sessionIdle S1)]. vm_compute. reflexivity. Qed.

Lemma armedWorld_pending : pendingTimers armedWorld !! S1 = Some 0.
Proof. vm_compute. reflexivity. Qed.


Lemma activeWorld_reachable : reachable defaultHook activeWorld.
Proof. exists [Deliver (sessionCreated S1)]. vm_compute. reflexivity. Qed.

Lemma activeWorld_marked : S1 ∈ sessionActivitySinceIdle activeWorld.
Proof. apply (bool_decide_unpack _). vm_compute. exact I. Qed.

Lemma racedWorld_reachable : reachable defaultHook racedWorld.
Proof. exists raceRun. vm_compute. reflexivity. Qed.

(** An activity event before the timeout fires: timeout 0 of [S1] is
    cleared by a [message.updated] and its call never sends. *)
Lemma activity_cancels_notification_witness :
  reachable defaultHook armedWorld ∧
  pendingTimers armedWorld !! S1 = Some 0 ∧
  isActivityType (ev_type (messageUpdated "M1" S1)) = true ∧
  eventSession defaultHook (messageUpdated "M1" S1) = Some S1 ∧
  ∀ ls w',
    run defaultHook (handle defaultHook (messageUpdated "M1" S1) armedWorld) ls
      = Some w' →
    timerQueue w' !! 0 = None ∧ sendCallsOf 0 (log w') = [].
Proof.
  assert (Hty : isActivityType (ev_type (messageUpdated "M1" S1)) = true)
    by reflexivity.
  assert (Hev : eventSession defaultHook (messageUpdated "M1" S1) = Some S1)
    by (vm_compute; reflexivity).
  split; [exact armedWorld_reachable |].
  split; [exact armedWorld_pending |].
  split; [exact Hty |]. split; [exact Hev |].
  exact (proj2 (proj2 (activity_cancels_notification defaultHook armedWorld S1 0
    (messageUpdated "M1" S1) armedWorld_reachable armedWorld_pending Hty Hev))).
Defined.


(** A repeated [session.idle] while timeout 0 is pending changes nothing. *)
Lemma single_pending_timer_witness :
  reachable defaultHook armedWorld ∧
  handle defaultHook (sessionIdle S1) armedWorld = armedWorld.
Proof.
  split; [exact armedWorld_reachable |].
  apply (proj2 (proj2 (single_pending_timer defaultHook armedWorld
                         armedWorld_reachable)) (sessionIdle S1) S1).
  - reflexivity.
  - vm_compute. reflexivity.
  - left. exists 0. exact armedWorld_pending.
Defined.


(** After the overlapping calls of [raceRun]: every dispatch was committed
    first and no promise was rejected. *)
Lemma dispatch_commits_then_swallows_errors_witness :
  reachable defaultHook racedWorld ∧
  committedFirst (log racedWorld) ∧ neverRejected (log racedWorld).
Proof.
  split; [exact racedWorld_reachable |].
  destruct (dispatch_commits_then_swallows_errors defaultHook racedWorld
              racedWorld_reachable) as (Hord & Hrej & _).
  split; [exact Hord | exact Hrej].
Defined.

(** The mark set by [session.created]: no timeout pending for [S1]. *)
Lemma activity_mark_lifecycle_witness :
  reachable defaultHook activeWorld ∧
  S1 ∈ sessionActivitySinceIdle activeWorld ∧
  pendingTimers activeWorld !! S1 = None ∧
  ∀ t, timerQueue activeWorld !! t ≠ Some S1.
Proof.
  split; [exact activeWorld_reachable |].
  split; [exact activeWorld_marked |].
  destruct (activity_mark_lifecycle defaultHook activeWorld S1
              activeWorld_reachable activeWorld_marked) as (Hp & Hq & _).
  split; [exact Hp | exact Hq].
Defined.

(** A platform the resolver does not know. *)
Lemma unsupported_platform_noop_witness :
  detectPlatform "freebsd" = unsupported ∧
  ∀ event w,
    handle (createSessionNotification "freebsd" emptyConfig) event w = w.
Proof.
  split; [reflexivity |].
  exact (proj1 (unsupported_platform_noop "freebsd" emptyConfig eq_refl)).
Defined.

(** Arming a timeout for [S1] leaves [S2] alone. *)
Lemma other_sessions_untouched_witness :
  step defaultHook initial (Deliver (sessionIdle S1)) = Some armedWorld ∧
  sessionState armedWorld S2 = sessionState initial S2.
Proof.
  assert (Hstep : step defaultHook initial (Deliver (sessionIdle S1))
                  = Some armedWorld) by reflexivity.
  split; [exact Hstep |].
  apply (proj1 (other_sessions_untouched defaultHook initial
                  (Deliver (sessionIdle S1)) armedWorld Hstep)).
  vm_compute. intros [=].
Defined.

(** * Further properties of the hook *)

(** ** Escaping of the title and the message *)

Lemma backslash_not_quote : isQuote backslash = false.
Proof. reflexivity. Qed.

Lemma escapeQuotes_nil : escapeQuotes EmptyString = EmptyString.
Proof. reflexivity. Qed.

(** The two passes of [escapeQuotes] amount to one pass over the string. *)
Lemma escapeQuotes_cons x s :
  escapeQuotes (String x s) =
    if isQuote x then String backslash (String x (escapeQuotes s))
    else String x (escapeQuotes s).
Proof.
  unfold escapeQuotes, isQuote. cbn [replaceAll].
  destruct (Ascii.eqb_spec x dquote) as [-> | Hd].
  - reflexivity.
  - cbn [replaceAll orb]. destruct (Ascii.eqb_spec x squote) as [-> | Hs].
    + reflexivity.
    + reflexivity.
Qed.

Lemma escapeQuotes_head s q r :
  escapeQuotes s = String q r → isQuote q = false.
Proof.
  destruct s as [| x s]; [done |]. rewrite escapeQuotes_cons.
  destruct (isQuote x) eqn:Hx; intros [= <- _]; [reflexivity | done].
Qed.

(** X10: in the escaped title or message every double or single quote
    stands right behind a backslash; in particular the escaped string never
    begins with a quote. *)
Theorem escaped_quotes_follow_backslash s n c :
  String.get n (escapeQuotes s) = Some c → isQuote c = true →
  ∃ m, n = S m ∧ String.get m (escapeQuotes s) = Some backslash.
Proof.
  revert n. induction s as [| x s IH]; intros n Hget Hc; [by destruct n |].
  rewrite escapeQuotes_cons in *. destruct (isQuote x) eqn:Hx.
  - destruct n as [| [| k]]; cbn [String.get] in *.
    + injection Hget as <-. by rewrite backslash_not_quote in Hc.
    + by exists 0.
    + destruct (IH k Hget Hc) as (m & -> & Hm). by exists (S (S m)).
  - destruct n as [| k]; cbn [String.get] in *.
    + injection Hget as <-. congruence.
    + destruct (IH k Hget Hc) as (m & -> & Hm). by exists (S m).
Qed.

(** X11: escaping adds exactly one character per quote and nothing else:
    the length grows by the number of quotes, and a string is returned as
    it is exactly when it holds no quote (backslashes are left alone). *)
Theorem escapeQuotes_length s :
  String.length (escapeQuotes s) = String.length s + countQuotes s ∧
  (countQuotes s = 0 ↔ escapeQuotes s = s).
Proof.
  assert (Hlen : ∀ s, String.length (escapeQuotes s)
                      = String.length s + countQuotes s).
  { clear s. induction s as [| x s IH]; [done |].
    rewrite escapeQuotes_cons. cbn [countQuotes].
    destruct (isQuote x); cbn [String.length]; rewrite IH; lia. }
  split; [apply Hlen |]. split.
  - induction s as [| x s IH]; [done |].
    rewrite escapeQuotes_cons. cbn [countQuotes].
    destruct (isQuote x); [done |]. intros H0. by rewrite IH.
  - intros Heq. pose proof (Hlen s) as Hl. rewrite Heq in Hl. lia.
Qed.

Lemma unescape_escape s : unescapeQuotes (escapeQuotes s) = s.
Proof.
  induction s as [| x s IH]; [done |].
  rewrite escapeQuotes_cons. destruct (isQuote x) eqn:Hx.
  - cbn [unescapeQuotes]. rewrite Ascii.eqb_refl, Hx. cbn [andb].
    by rewrite IH.
  - cbn [unescapeQuotes]. destruct (escapeQuotes s) as [| q r] eqn:He.
    + simpl in IH. by rewrite <- IH.
    + rewrite (escapeQuotes_head _ _ _ He), andb_false_r. by rewrite IH.
Qed.

(** X12: the original text can be recovered from the escaped one by
    dropping the backslash in front of each quote, so two different titles
    or messages never escape to the same string. *)
Theorem escapeQuotes_injective a b :
  unescapeQuotes (escapeQuotes a) = a ∧
  (escapeQuotes a = escapeQuotes b → a = b).
Proof.
  split; [apply unescape_escape |]. intros Heq.
  by rewrite <- (unescape_escape a), Heq, unescape_escape.
Qed.

(** ** Confirmation calls *)

Lemma sendCallsOf_send r s p ti m l :
  sendCallsOf r (l ++ [SendCall r s p ti m]) =
  sendCallsOf r l ++ [SendCall r s p ti m].
Proof. rewrite sendCallsOf_app. simpl. by rewrite Nat.eqb_refl. Qed.

Section Once.

Variable hook : Hook.

Lemma sendsOnce_initial : sendsOnce initial.
Proof. intros r. split; [simpl; lia | done]. Qed.

Lemma sendsOnce_step w l w' :
  Inv w → sendsOnce w → step hook w l = Some w' → sendsOnce w'.
Proof.
  intros Hi Hso Hstep r. destruct (Hso r) as [Hlen Hgate].
  destruct l as [event | t | r' resp | r' o | r' o]; cbn [step] in Hstep.
  - injection Hstep as <-. by rewrite handle_log, handle_inflight.
  - destruct (timerQueue w !! t) as [s |] eqn:Hts; [| done].
    injection Hstep as <-.
    pose proof (live_timer_silent _ _ _ Hi Hts) as Hnil.
    unfold executeNotification.
    destruct (decide (t = r)) as [-> | Hne].
    + repeat case_decide; [| | destruct (skipIfIncompleteTodos _)]; wsimplg;
        rewrite ?sendCallsOf_send, ?sendCallsOf_not_send, ?Hnil by done;
        rewrite ?lookup_delete_eq, ?lookup_insert_eq;
        (split; [simpl; lia | done]).
    + repeat case_decide; [| | destruct (skipIfIncompleteTodos _)]; wsimplg;
        rewrite ?sendCallsOf_other by done;
        rewrite ?lookup_delete_ne, ?lookup_insert_ne by done; done.
  - destruct (inflight w !! r') as [[s | s | s] |] eqn:Hr; try done.
    injection Hstep as <-. unfold afterTodo.
    destruct (decide (r' = r)) as [-> | Hne].
    + pose proof (Hgate _ Hr) as Hnil.
      destruct (hasIncompleteTodos resp); wsimplg;
        rewrite ?sendCallsOf_send, ?sendCallsOf_not_send, ?Hnil by done;
        rewrite ?lookup_delete_eq, ?lookup_insert_eq;
        (split; [simpl; lia | done]).
    + destruct (hasIncompleteTodos resp); wsimplg;
        rewrite ?sendCallsOf_other by done;
        rewrite ?lookup_delete_ne, ?lookup_insert_ne by done; done.
  - destruct (inflight w !! r') as [[s | s | s] |] eqn:Hr; try done.
    injection Hstep as <-. unfold afterSend, tryCatch, awaited.
    destruct o; [destruct (playSound _ && _) |]; wsimplg;
      rewrite ?sendCallsOf_not_send by done;
      (split; [done |]); intros s';
      rewrite ?lookup_delete, ?lookup_insert; case_decide; subst;
      try done; intros ?; apply (Hgate s'); congruence.
  - destruct (inflight w !! r') as [[s | s | s] |] eqn:Hr; try done.
    injection Hstep as <-. unfold afterSound, tryCatch, awaited.
    destruct o; wsimplg;
      rewrite ?sendCallsOf_not_send by done;
      (split; [done |]); intros s';
      rewrite ?lookup_delete, ?lookup_insert; case_decide; subst;
      try done; intros ?; apply (Hgate s'); congruence.
Qed.

Lemma reachable_sendsOnce w : reachable hook w → sendsOnce w.
Proof.
  intros [ls Hrun]. revert Hrun.
  generalize sendsOnce_initial Inv_initial. generalize initial.
  induction ls as [| l ls IH]; simpl; intros w0 Hso Hi Hrun.
  - by injection Hrun as <-.
  - destruct (step hook w0 l) as [w1 |] eqn:Hstep; [| done].
    eapply IH; [| | done].
    + by eapply sendsOnce_step.
    + by eapply Inv_step.
Qed.

(** X3: in every reachable state, each confirmation call (one per fired
    timeout) has called [sendNotification] at most once. *)
Theorem each_call_sends_at_most_once w r :
  reachable hook w → length (sendCallsOf r (log w)) ≤ 1.
Proof. intros Hr. by apply reachable_sendsOnce. Qed.

(** X2: when the todo request of a waiting confirmation call reports
    incomplete work, the call ends at once: the per-session state of every
    session, the live timeouts and the other suspended calls stay as they
    were (the session is not marked notified, so a later [session.idle]
    can arm again), and the call never calls [sendNotification]. *)
Theorem open_todos_block_notification w r s resp :
  reachable hook w →
  inflight w !! r = Some (AwaitTodo s) →
  hasIncompleteTodos resp = true →
  ∃ w', step hook w (TodoSettles r resp) = Some w' ∧
    (∀ T, sessionState w' T = sessionState w T) ∧
    timerQueue w' = timerQueue w ∧
    inflight w' = delete r (inflight w) ∧
    ∀ ls w'', run hook w' ls = Some w'' → sendCallsOf r (log w'') = [].
Proof.
  intros Hr Hfl Hresp.
  pose proof (reachable_Inv _ _ Hr) as Hi.
  destruct (reachable_sendsOnce _ Hr r) as [_ Hgate].
  destruct (inv_inflight _ Hi _ _ Hfl) as [Hlt Hq].
  eexists. split; [cbn [step]; by rewrite Hfl |].
  unfold afterTodo. rewrite Hresp. wsimplg.
  split; [done |]. split; [done |]. split; [done |].
  intros ls w'' Hrun.
  match type of Hrun with run _ ?w1 _ = _ => assert (Hp : pastGate r w1) end.
  { unfold pastGate. wsimplg. rewrite lookup_delete_eq. done. }
  destruct (pastGate_run hook ls _ _ _ Hp Hrun) as [_ ->].
  wsimplg. rewrite sendCallsOf_not_send by done. by eapply Hgate.
Qed.

End Once.

Section More.

Variable hook : Hook.

Lemma handle_notified_subset event w s :
  s ∈ notifiedSessions (handle hook event w) → s ∈ notifiedSessions w.
Proof.
  destruct (handle_cases hook event w) as [| s0 _ _ | s0 _ _ _ _ | s0 _ _];
    [done | | done |].
  - unfold markSessionActivity. wsimplg.
    destruct (cancel_sessionState s0 w) as (_ & _ & ->).
    rewrite elem_of_difference. by intros [? _].
  - unfold forgetSession. wsimplg.
    destruct (cancel_sessionState s0 w) as (_ & _ & ->).
    rewrite elem_of_difference. by intros [? _].
Qed.

Lemma notifiedBySend_step w l w' :
  notifiedBySend hook w → step hook w l = Some w' → notifiedBySend hook w'.
Proof.
  intros Hn Hstep s.
  destruct l as [event | t | r resp | r o | r o]; cbn [step] in Hstep.
  - injection Hstep as <-. rewrite handle_log.
    intros Hin%handle_notified_subset. by apply Hn.
  - destruct (timerQueue w !! t) as [s0 |] eqn:Hts; [| done].
    injection Hstep as <-. unfold executeNotification.
    repeat case_decide; [| | destruct (skipIfIncompleteTodos _)]; wsimplg;
      rewrite ?elem_of_union, ?elem_of_singleton; intros Hin;
      try (destruct (Hn s Hin) as [r0 Hr0]; exists r0;
           rewrite ?elem_of_app; by auto).
    destruct Hin as [-> | Hin].
    + exists t. rewrite !elem_of_app, !list_elem_of_singleton. by right.
    + destruct (Hn s Hin) as [r0 Hr0]. exists r0.
      rewrite !elem_of_app. by auto.
  - destruct (inflight w !! r) as [[s0 | s0 | s0] |] eqn:Hr; try done.
    injection Hstep as <-. unfold afterTodo.
    destruct (hasIncompleteTodos resp); wsimplg;
      rewrite ?elem_of_union, ?elem_of_singleton; intros Hin;
      try (destruct (Hn s Hin) as [r0 Hr0]; exists r0;
           rewrite ?elem_of_app; by auto).
    destruct Hin as [-> | Hin].
    + exists r. rewrite !elem_of_app, !list_elem_of_singleton. by right.
    + destruct (Hn s Hin) as [r0 Hr0]. exists r0.
      rewrite !elem_of_app. by auto.
  - destruct (inflight w !! r) as [[s0 | s0 | s0] |] eqn:Hr; try done.
    injection Hstep as <-. unfold afterSend, tryCatch, awaited.
    destruct o; [destruct (playSound _ && _) |]; wsimplg; intros Hin;
      destruct (Hn s Hin) as [r0 Hr0]; exists r0;
      rewrite ?elem_of_app; by auto.
  - destruct (inflight w !! r) as [[s0 | s0 | s0] |] eqn:Hr; try done.
    injection Hstep as <-. unfold afterSound, tryCatch, awaited.
    destruct o; wsimplg; intros Hin;
      destruct (Hn s Hin) as [r0 Hr0]; exists r0;
      rewrite ?elem_of_app; by auto.
Qed.

(** X4: in every reachable state, a session that is marked notified has
    had a [sendNotification] call made for it, with the current platform
    and the configured title and message. *)
Theorem notified_only_after_send w s :
  reachable hook w → s ∈ notifiedSessions w →
  ∃ r, theSendCall hook r s ∈ log w.
Proof.
  intros [ls Hrun]. revert Hrun.
  assert (H0 : notifiedBySend hook initial) by (intros s0 Hin; by apply not_elem_of_empty in Hin).
  revert H0. generalize initial.
  induction ls as [| l ls IH]; simpl; intros w0 Hn Hrun.
  - injection Hrun as <-. apply Hn.
  - destruct (step hook w0 l) as [w1 |] eqn:Hstep; [| done].
    eapply IH; [| done]. by eapply notifiedBySend_step.
Qed.

Lemma notified_persists_step w l w' s :
  step hook w l = Some w' → endsEpisode hook s l = false →
  s ∈ notifiedSessions w → s ∈ notifiedSessions w'.
Proof.
  intros Hstep Hend Hin.
  destruct l as [event | t | r resp | r o | r o]; cbn [step endsEpisode] in *.
  - injection Hstep as <-.
    destruct (handle_cases hook event w) as [| s0 Hev Hty | s0 Hev Hty _ _ | s0 Hev Hty];
      [done | | done |].
    + unfold markSessionActivity. wsimplg.
      destruct (cancel_sessionState s0 w) as (_ & _ & ->).
      rewrite elem_of_difference, elem_of_singleton. split; [done |].
      intros ->. by rewrite Hty, bool_decide_eq_true_2 in Hend.
    + unfold forgetSession. wsimplg.
      destruct (cancel_sessionState s0 w) as (_ & _ & ->).
      rewrite elem_of_difference, elem_of_singleton. split; [done |].
      intros ->. by rewrite Hty, orb_true_r, bool_decide_eq_true_2 in Hend.
  - destruct (timerQueue w !! t) as [s0 |] eqn:Hts; [| done].
    injection Hstep as <-. unfold executeNotification.
    repeat case_decide; [| | destruct (skipIfIncompleteTodos _)]; wsimplg;
      rewrite ?elem_of_union; auto.
  - destruct (inflight w !! r) as [[s0 | s0 | s0] |] eqn:Hr; try done.
    injection Hstep as <-. unfold afterTodo.
    destruct (hasIncompleteTodos resp); wsimplg; rewrite ?elem_of_union; auto.
  - destruct (inflight w !! r) as [[s0 | s0 | s0] |] eqn:Hr; try done.
    injection Hstep as <-. unfold afterSend, tryCatch, awaited.
    destruct o; [destruct (playSound _ && _) |]; done.
  - destruct (inflight w !! r) as [[s0 | s0 | s0] |] eqn:Hr; try done.
    injection Hstep as <-. unfold afterSound, tryCatch, awaited.
    by destruct o.
Qed.

(** X5: a session that is marked notified stays marked along any run that
    holds no activity or deletion event for it, whatever else happens; at
    the end of such a run a [session.idle] for it still changes nothing. *)
Theorem notified_until_activity ls : ∀ w w' s,
  run hook w ls = Some w' →
  forallb (λ l, negb (endsEpisode hook s l)) ls = true →
  s ∈ notifiedSessions w →
  s ∈ notifiedSessions w' ∧
  ∀ idle, isIdleType (ev_type idle) = true → eventSession hook idle = Some s →
          handle hook idle w' = w'.
Proof.
  induction ls as [| l ls IH]; simpl; intros w w' s Hrun Hall Hin.
  - injection Hrun as <-. split; [done |]. intros idle Hty Hev.
    rewrite (handle_idle _ _ _ _ Hev Hty). by rewrite decide_True.
  - destruct (step hook w l) as [w1 |] eqn:Hstep; [| done].
    apply andb_true_iff in Hall as [Hl Hall]. apply negb_true_iff in Hl.
    eapply IH; [done | done |]. by eapply notified_persists_step.
Qed.

(** X6: in any state, an activity event for a session leaves it not
    notified, without pending timeout and with the activity mark set; a
    [session.idle] for it handled right after arms a fresh timeout, clears
    the mark and sends nothing. *)
Theorem activity_rearms act idle s w :
  isActivityType (ev_type act) = true → eventSession hook act = Some s →
  isIdleType (ev_type idle) = true → eventSession hook idle = Some s →
  let w1 := handle hook act w in
  let w2 := handle hook idle w1 in
  sessionState w1 s = (false, None, true) ∧
  sessionState w2 s = (false, Some (nextTimer w), false) ∧
  timerQueue w2 !! nextTimer w = Some s ∧
  nextTimer w2 = S (nextTimer w) ∧
  log w2 = log w.
Proof.
  intros Haty Haev Hity Hiev w1 w2. subst w1 w2.
  rewrite (handle_idle _ _ _ _ Hiev Hity).
  rewrite (handle_activity _ _ _ _ Haev Haty).
  destruct (cancel_sessionState s w) as (Hp & Ha & Hn).
  assert (Hnot : s ∉ notifiedSessions (markSessionActivity s w)).
  { unfold markSessionActivity. wsimplg.
    rewrite elem_of_difference, elem_of_singleton. by intros [_ ?]. }
  assert (Hpn : pendingTimers (markSessionActivity s w) !! s = None) by exact Hp.
  assert (Hnx : nextTimer (markSessionActivity s w) = nextTimer w).
  { unfold markSessionActivity, cancelPendingNotification.
    by destruct (pendingTimers w !! s). }
  assert (Hlg : log (markSessionActivity s w) = log w).
  { unfold markSessionActivity, cancelPendingNotification.
    by destruct (pendingTimers w !! s). }
  rewrite decide_False by done.
  rewrite decide_False by (rewrite Hpn; by intros [? ?]).
  destruct (armTimer_sessionState s _ Hnot) as (Hst & Hq & Hn2 & Hl2 & _).
  rewrite Hnx in *. rewrite Hl2, Hlg.
  split; [| done].
  unfold sessionState. rewrite Hpn.
  rewrite (bool_decide_eq_false_2 _ Hnot).
  rewrite bool_decide_eq_true_2; [done |].
  unfold markSessionActivity. wsimplg. exact Ha.
Qed.

End More.

(** ** Edge cases of the handler *)

Section Edge.

Variable hook : Hook.

(** X1: an event whose type is none of the five the handler knows, or
    whose identifier fields are all absent or empty, is ignored: the
    handler returns the state it was given. *)
Theorem malformed_events_ignored event w :
  knownEventType (ev_type event) = false ∨
  (truthy (getSessionID (ev_properties event)) = None ∧
   truthy (getId (getInfo (ev_properties event))) = None ∧
   truthy (getInfoSessionID (getInfo (ev_properties event))) = None) →
  handle hook event w = w.
Proof.
  unfold handle, knownEventType, onIdle, onMessageUpdated, onDeleted.
  case_decide; [done |].
  destruct (String.eqb (ev_type event) "session.updated"),
    (String.eqb (ev_type event) "session.created"),
    (String.eqb (ev_type event) "session.idle"),
    (String.eqb (ev_type event) "message.updated"),
    (String.eqb (ev_type event) "session.deleted"); cbn [orb];
    intros [Hk | (H1 & H2 & H3)]; try done; by rewrite ?H1, ?H2, ?H3.
Qed.

Lemma world_eq w w' :
  notifiedSessions w = notifiedSessions w' →
  pendingTimers w = pendingTimers w' →
  sessionActivitySinceIdle w = sessionActivitySinceIdle w' →
  timerQueue w = timerQueue w' → nextTimer w = nextTimer w' →
  inflight w = inflight w' → log w = log w' → w = w'.
Proof. destruct w, w'. simpl. by intros -> -> -> -> -> -> ->. Qed.

(** X14: handling the same activity event, or the same deletion event,
    twice in a row gives the state of handling it once; deleting a session
    the hook holds nothing about changes nothing. *)
Theorem repeated_events_collapse s w :
  markSessionActivity s (markSessionActivity s w) = markSessionActivity s w ∧
  forgetSession s (forgetSession s w) = forgetSession s w ∧
  (s ∉ notifiedSessions w → pendingTimers w !! s = None →
   s ∉ sessionActivitySinceIdle w → forgetSession s w = w).
Proof.
  destruct (cancel_sessionState s w) as (Hp & Ha & _).
  assert (Hp1 : pendingTimers (markSessionActivity s w) !! s = None) by exact Hp.
  assert (Hp2 : pendingTimers (forgetSession s w) !! s = None) by exact Hp.
  split; [| split].
  - unfold markSessionActivity at 1. unfold cancelPendingNotification at 1.
    rewrite Hp1. apply world_eq; wsimplg; try done; apply set_eq; intros x;
      repeat (rewrite elem_of_union || rewrite elem_of_difference
              || rewrite elem_of_singleton);
      intuition (subst; auto).
  - unfold forgetSession at 1. unfold cancelPendingNotification at 1.
    rewrite Hp2. apply world_eq; wsimplg; try done; apply set_eq; intros x;
      repeat (rewrite elem_of_union || rewrite elem_of_difference
              || rewrite elem_of_singleton);
      intuition (subst; auto).
  - intros Hn Hpn Hna. unfold forgetSession, cancelPendingNotification.
    rewrite Hpn. apply world_eq; wsimplg; try done; apply set_eq; intros x;
      repeat (rewrite elem_of_union || rewrite elem_of_difference
              || rewrite elem_of_singleton);
      intuition (subst; auto; congruence).
Qed.

End Edge.

(** X9: [detectPlatform] resolves to a supported tag exactly for "darwin",
    "linux" and "win32", and exactly then does the handler act: a
    [session.idle] with a non-empty identifier delivered to a fresh hook
    arms timeout 0 for that session. *)
Theorem supported_platform_arms os config s :
  s ≠ EmptyString →
  (detectPlatform os ≠ unsupported ↔
     os = "darwin" ∨ os = "linux" ∨ os = "win32") ∧
  (detectPlatform os ≠ unsupported ↔
     pendingTimers (handle (createSessionNotification os config)
                      (sessionIdle s) initial) !! s = Some 0).
Proof.
  intros Hs.
  assert (Hd : detectPlatform os ≠ unsupported ↔
               os = "darwin" ∨ os = "linux" ∨ os = "win32").
  { unfold detectPlatform.
    destruct (String.eqb_spec os "darwin"); [by intuition |].
    destruct (String.eqb_spec os "linux"); [by intuition |].
    destruct (String.eqb_spec os "win32"); [by intuition |].
    split; [done | intros [? | [? | ?]]; done]. }
  split; [done |].
  unfold handle. cbn [currentPlatform createSessionNotification].
  case_decide as Hp.
  - split; [done |]. simpl. by rewrite lookup_empty.
  - split; [intros _ | done].
    cbn [ev_type sessionIdle ev_properties]. 
    change (String.eqb "session.idle" "session.updated"
            || String.eqb "session.idle" "session.created") with false.
    change (String.eqb "session.idle" "session.idle") with true. cbv iota.
    unfold onIdle. cbn [getSessionID props_sessionID truthy].
    apply String.eqb_neq in Hs. rewrite Hs.
    rewrite decide_False by apply not_elem_of_empty.
    rewrite decide_False by (cbn; rewrite lookup_empty; by intros [? ?]).
    wsimplg. cbn. apply lookup_insert_eq.
Qed.

(** ** What a run lets one observe *)

Lemma precededBy_snoc trigger mark l o :
  precededBy trigger mark l → (trigger o = true → mark o ∈ l) →
  precededBy trigger mark (l ++ [o]).
Proof.
  intros Hl Ho l1 o' l2 Heq Hd.
  destruct l2 as [| x l2' _] using rev_ind.
  - apply (app_inj_tail l l1 o o') in Heq as [<- <-]. auto.
  - rewrite app_comm_cons, app_assoc in Heq.
    apply app_inj_tail in Heq as [-> _]. by eapply Hl.
Qed.

Lemma shape_snoc (P : Obs → Prop) l o :
  (∀ x, x ∈ l → P x) → P o → ∀ x, x ∈ l ++ [o] → P x.
Proof.
  intros Hl Ho x [Hin | Hin]%elem_of_app; [auto |].
  by apply list_elem_of_singleton in Hin as ->.
Qed.

Section Order.

Variable hook : Hook.

Lemma Ordered_initial : Ordered hook initial.
Proof.
  split; simpl.
  - intros o Hin. by apply elem_of_nil in Hin.
  - intros _ [| ? ?] ? ? ?; done.
  - intros r s. by rewrite lookup_empty.
  - intros [| ? ?] ? ? ?; done.
  - intros r s. by rewrite lookup_empty.
Qed.

Ltac ord_shape Hsh :=
  repeat (apply shape_snoc); [exact Hsh | ..]; cbn [obsShape]; try done.

Ltac ord_prec Hp Hfl :=
  repeat (apply precededBy_snoc; unfold todoCallOf, sendOf;
          cbn [isSendCall isSoundCall obsCall obsSession]);
  [exact Hp | ..]; try done; intros _;
  first [ apply Hfl; by auto
        | rewrite ?elem_of_app, ?list_elem_of_singleton; by auto ].

Ltac ord_gate Hg Hgf :=
  let Hsk := fresh "Hsk" in
  let Hp := fresh "Hp" in
  intros Hsk; try congruence;
  first [pose proof (Hg Hsk) as Hp | pose proof (Hg eq_refl) as Hp];
  ord_prec Hp Hgf.

Ltac ord_inflight Hfl :=
  let Hc := fresh "Hc" in
  intros ? ?; rewrite ?lookup_delete, ?lookup_insert; case_decide;
  rewrite ?elem_of_app, ?list_elem_of_singleton;
  intros Hc; try done;
  try (left; left; apply Hfl; by auto);
  try (left; apply Hfl; by auto);
  try (apply Hfl; by auto);
  injection Hc as <-; subst; by auto.

Lemma Ordered_step w l w' :
  Ordered hook w → step hook w l = Some w' → Ordered hook w'.
Proof.
  intros [Hsh Hg Hgf Hs Hsf] Hstep.
  destruct l as [event | t | r resp | r o | r o]; cbn [step] in Hstep.
  - injection Hstep as <-.
    split; rewrite ?handle_log, ?handle_inflight; done.
  - destruct (timerQueue w !! t) as [s |] eqn:Hts; [| done].
    injection Hstep as <-. unfold executeNotification.
    repeat case_decide;
      [| | destruct (skipIfIncompleteTodos (mergedConfig hook)) eqn:Hskip];
      (split; wsimplg;
       [ ord_shape Hsh
       | ord_gate Hg Hgf
       | ord_inflight Hgf
       | ord_prec Hs Hsf
       | ord_inflight Hsf ]).
  - destruct (inflight w !! r) as [[s | s | s] |] eqn:Hr; try done.
    injection Hstep as <-. unfold afterTodo.
    pose proof (Hsh _ (Hgf _ _ Hr)) as Hskip. cbn [obsShape] in Hskip.
    destruct (hasIncompleteTodos resp);
      (split; wsimplg;
       [ ord_shape Hsh
       | ord_gate Hg Hgf
       | ord_inflight Hgf
       | ord_prec Hs Hsf
       | ord_inflight Hsf ]).
  - destruct (inflight w !! r) as [[s | s | s] |] eqn:Hr; try done.
    injection Hstep as <-. unfold afterSend, tryCatch, awaited.
    destruct o;
      [destruct (playSound (mergedConfig hook)) eqn:Hps;
       [destruct (String.eqb_spec (soundPath (mergedConfig hook)) "") |] |];
      cbn [andb negb];
      (split; wsimplg;
       [ ord_shape Hsh
       | ord_gate Hg Hgf
       | ord_inflight Hgf
       | ord_prec Hs Hsf
       | ord_inflight Hsf ]).
  - destruct (inflight w !! r) as [[s | s | s] |] eqn:Hr; try done.
    injection Hstep as <-. unfold afterSound, tryCatch, awaited.
    destruct o;
      (split; wsimplg;
       [ ord_shape Hsh
       | ord_gate Hg Hgf
       | ord_inflight Hgf
       | ord_prec Hs Hsf
       | ord_inflight Hsf ]).
Qed.

End Order.

Section Sink.

Variable hook : Hook.

Lemma reachable_Ordered w : reachable hook w → Ordered hook w.
Proof.
  intros [ls Hrun]. revert Hrun. generalize (Ordered_initial hook).
  generalize initial. induction ls as [| l ls IH]; simpl; intros w0 Ho Hrun.
  - by injection Hrun as <-.
  - destruct (step hook w0 l) as [w1 |] eqn:Hstep; [| done].
    eapply IH; [| done]. by eapply Ordered_step.
Qed.

Lemma unsupported_stays_initial w :
  currentPlatform hook = unsupported → reachable hook w → w = initial.
Proof.
  intros Hp [ls Hrun]. revert w Hrun.
  induction ls as [| l ls IH]; intros w Hrun.
  - by injection Hrun as <-.
  - destruct l; [| by simpl in Hrun ..].
    cbn [run step] in Hrun. unfold handle in Hrun.
    rewrite decide_True in Hrun by done. by apply IH.
Qed.

Lemma observed_platform_supported w o :
  reachable hook w → o ∈ log w → currentPlatform hook ≠ unsupported.
Proof.
  intros Hr Hin Hp. rewrite (unsupported_stays_initial w Hp Hr) in Hin.
  by apply elem_of_nil in Hin.
Qed.

(** X7: with [skipIfIncompleteTodos] on, every [sendNotification] call in
    a reachable log comes after the todo request of the same confirmation
    call; with it off, no todo request is ever made. *)
Theorem todo_gate_consulted w :
  reachable hook w →
  (skipIfIncompleteTodos (mergedConfig hook) = true →
   precededBy isSendCall todoCallOf (log w)) ∧
  (skipIfIncompleteTodos (mergedConfig hook) = false →
   ∀ o, o ∈ log w → isTodoCall o = false).
Proof.
  intros [Hsh Hg _ _ _]%reachable_Ordered. split; [done |].
  intros Hskip o Hin. specialize (Hsh o Hin).
  destruct o; try done. cbn [obsShape] in Hsh. congruence.
Qed.

(** X8: every [playSound] call in a reachable log comes after the
    [sendNotification] call of the same confirmation call, is made only
    when [playSound] is configured and the sound path is not empty, passes
    the configured path, and runs at least one command. *)
Theorem sound_follows_notification w :
  reachable hook w →
  precededBy isSoundCall (sendOf hook) (log w) ∧
  ∀ r s p path, SoundCall r s p path ∈ log w →
    playSound (mergedConfig hook) = true ∧
    path = soundPath (mergedConfig hook) ∧ path ≠ EmptyString ∧
    p = currentPlatform hook ∧
    ∀ firstFails, playSoundCommands p path firstFails ≠ [].
Proof.
  intros Hr. destruct (reachable_Ordered _ Hr) as [Hsh _ _ Hs _].
  split; [done |]. intros r s p path Hin.
  pose proof (observed_platform_supported _ _ Hr Hin) as Hsup.
  destruct (Hsh _ Hin) as (-> & -> & Hps & Hne).
  repeat (split; [done |]). intros firstFails.
  by destruct (currentPlatform hook).
Qed.


End Sink.

(** ** The further properties at concrete inputs *)

Lemma gateWorld_reachable : reachable defaultHook gateWorld.
Proof.
  exists [Deliver (sessionIdle S1); Fire 0]. vm_compute. reflexivity.
Qed.

Lemma soundWorld_reachable : reachable ungatedHook soundWorld.
Proof.
  exists [Deliver (sessionIdle S1); Fire 0; SendSettles 0 Fulfilled].
  vm_compute. reflexivity.
Qed.

Lemma racedWorld_notified : S1 ∈ notifiedSessions racedWorld.
Proof. apply (bool_decide_unpack _). vm_compute. exact I. Qed.


Lemma soundWorld_sound :
  SoundCall 0 S1 linux (getDefaultSoundPath linux) ∈ log soundWorld.
Proof. apply (list_elem_of_lookup_2 _ 2). vm_compute. reflexivity. Qed.

(** An event of unknown type changes nothing, even in [racedWorld]. *)
Lemma malformed_events_ignored_witness :
  knownEventType (ev_type unknownEvent) = false ∧
  handle defaultHook unknownEvent racedWorld = racedWorld.
Proof.
  split; [reflexivity |].
  apply (malformed_events_ignored defaultHook unknownEvent racedWorld).
  left. reflexivity.
Defined.

(** The call waiting in [gateWorld] learns of an open task. *)
Lemma open_todos_block_notification_witness :
  reachable defaultHook gateWorld ∧
  inflight gateWorld !! 0 = Some (AwaitTodo S1) ∧
  hasIncompleteTodos openTodos = true ∧
  ∃ w', step defaultHook gateWorld (TodoSettles 0 openTodos) = Some w' ∧
    (∀ T, sessionState w' T = sessionState gateWorld T) ∧
    ∀ ls w'', run defaultHook w' ls = Some w'' → sendCallsOf 0 (log w'') = [].
Proof.
  assert (Hfl : inflight gateWorld !! 0 = Some (AwaitTodo S1))
    by (vm_compute; reflexivity).
  split; [exact gateWorld_reachable |]. split; [exact Hfl |].
  split; [reflexivity |].
  destruct (open_todos_block_notification defaultHook gateWorld 0 S1 openTodos
              gateWorld_reachable Hfl eq_refl)
    as (w' & Hstep & Hst & _ & _ & Hnever).
  exists w'. split; [exact Hstep |]. split; [exact Hst | exact Hnever].
Defined.

Lemma each_call_sends_at_most_once_witness :
  reachable defaultHook racedWorld ∧
  length (sendCallsOf 0 (log racedWorld)) ≤ 1.
Proof.
  split; [exact racedWorld_reachable |].
  exact (each_call_sends_at_most_once defaultHook racedWorld 0
           racedWorld_reachable).
Defined.

Lemma notified_only_after_send_witness :
  reachable defaultHook racedWorld ∧ S1 ∈ notifiedSessions racedWorld ∧
  ∃ r, theSendCall defaultHook r S1 ∈ log racedWorld.
Proof.
  split; [exact racedWorld_reachable |]. split; [exact racedWorld_notified |].
  exact (notified_only_after_send defaultHook racedWorld S1
           racedWorld_reachable racedWorld_notified).
Defined.

(** After [raceRun], one more [session.idle] and the settling of the two
    [sendNotification] promises leave [S1] marked. *)
Lemma notified_until_activity_witness :
  run defaultHook racedWorld quietRun = Some quietWorld ∧
  forallb (λ l, negb (endsEpisode defaultHook S1 l)) quietRun = true ∧
  S1 ∈ notifiedSessions racedWorld ∧
  S1 ∈ notifiedSessions quietWorld.
Proof.
  assert (Hrun : run defaultHook racedWorld quietRun = Some quietWorld)
    by (vm_compute; reflexivity).
  assert (Hall : forallb (λ l, negb (endsEpisode defaultHook S1 l)) quietRun
                 = true) by (vm_compute; reflexivity).
  split; [exact Hrun |]. split; [exact Hall |].
  split; [exact racedWorld_notified |].
  exact (proj1 (notified_until_activity defaultHook quietRun racedWorld
                  quietWorld S1 Hrun Hall racedWorld_notified)).
Defined.

Lemma activity_rearms_witness :
  isActivityType (ev_type (sessionUpdated S1)) = true ∧
  eventSession defaultHook (sessionUpdated S1) = Some S1 ∧
  isIdleType (ev_type (sessionIdle S1)) = true ∧
  eventSession defaultHook (sessionIdle S1) = Some S1 ∧
  sessionState
    (handle defaultHook (sessionIdle S1)
       (handle defaultHook (sessionUpdated S1) racedWorld)) S1 =
    (false, Some (nextTimer racedWorld), false).
Proof.
  assert (Ha : eventSession defaultHook (sessionUpdated S1) = Some S1)
    by (vm_compute; reflexivity).
  assert (Hi : eventSession defaultHook (sessionIdle S1) = Some S1)
    by (vm_compute; reflexivity).
  split; [reflexivity |]. split; [exact Ha |].
  split; [reflexivity |]. split; [exact Hi |].
  exact (proj1 (proj2 (activity_rearms defaultHook (sessionUpdated S1)
                         (sessionIdle S1) S1 racedWorld eq_refl Ha eq_refl Hi))).
Defined.

Lemma todo_gate_consulted_witness :
  reachable defaultHook racedWorld ∧
  precededBy isSendCall todoCallOf (log racedWorld).
Proof.
  split; [exact racedWorld_reachable |].
  apply (proj1 (todo_gate_consulted defaultHook racedWorld
                  racedWorld_reachable)).
  reflexivity.
Defined.

Lemma sound_follows_notification_witness :
  reachable ungatedHook soundWorld ∧
  SoundCall 0 S1 linux (getDefaultSoundPath linux) ∈ log soundWorld ∧
  playSound (mergedConfig ungatedHook) = true ∧
  getDefaultSoundPath linux = soundPath (mergedConfig ungatedHook).
Proof.
  split; [exact soundWorld_reachable |]. split; [exact soundWorld_sound |].
  destruct (proj2 (sound_follows_notification ungatedHook soundWorld
                     soundWorld_reachable) 0 S1 linux
              (getDefaultSoundPath linux) soundWorld_sound)
    as (Hps & Hpath & _).
  split; [exact Hps | exact Hpath].
Defined.

Lemma supported_platform_arms_witness :
  S1 ≠ EmptyString ∧
  pendingTimers (handle (createSessionNotification "linux" emptyConfig)
                   (sessionIdle S1) initial) !! S1 = Some 0.
Proof.
  assert (Hne : S1 ≠ EmptyString) by discriminate.
  split; [exact Hne |].
  apply (proj2 (supported_platform_arms "linux" emptyConfig S1 Hne)).
  discriminate.
Defined.

(** The message [say "hi"]: the quote at index 1 of the escaped text has
    the backslash of index 0 in front. *)
Lemma escaped_quotes_follow_backslash_witness :
  String.get 1 (escapeQuotes (String dquote "hi")) = Some dquote ∧
  isQuote dquote = true ∧
  ∃ m, 1 = S m ∧
       String.get m (escapeQuotes (String dquote "hi")) = Some backslash.
Proof.
  split; [reflexivity |]. split; [reflexivity |].
  exact (escaped_quotes_follow_backslash (String dquote "hi") 1 dquote
           eq_refl eq_refl).
Defined.


(** ** The sink at sample inputs *)

Example escape_sample :
  escapeQuotes (String dquote ("a" +:+ String squote "b"))
  = String backslash (String dquote
      ("a" +:+ String backslash (String squote "b"))).
Proof. reflexivity. Qed.

Example linux_command :
  sendNotificationCommand linux "OpenCode" "Agent is ready for input"
  = Some ["notify-send"; "OpenCode"; "Agent is ready for input"].
Proof. reflexivity. Qed.

Example linux_sound_fallback :
  playSoundCommands linux "a.oga" true
  = [["paplay"; "a.oga"]; ["aplay"; "a.oga"]] ∧
  playSoundCommands linux "a.oga" false = [["paplay"; "a.oga"]].
Proof. split; reflexivity. Qed.
